(** * Option-portfolio construction: Black-Scholes elasticity, kernel
    weights and leverage-adjusted bucket returns

    Shallow embedding of [notebooks/portfolio_repl.ipynb]
    ([bs_elasticity], [kernel_weights], [construct_portfolio],
    [build_portfolios]) and the properties stated about it.

    Conventions of the embedding.
    - A NumPy [float64] is read as an extended real ([npfloat]): a real
      number, [+inf], [-inf] or [NaN].  Rounding, overflow, underflow and
      the sign of zero are not modelled; a zero divisor counts as [+0].
    - [scipy.stats.norm.cdf] is the standard normal distribution
      function [Phi], defined below as the improper integral of the
      Gaussian density.
    - A Python call either returns a value or raises ([outcome]).
    - A pandas [DataFrame] is the list of its rows, in index order; a
      [Series] is the list of its values. *)

From Stdlib Require Import Reals Lra Lia List String Bool.
Import ListNotations.
Open Scope R_scope.

(** ** The standard normal distribution function *)

Module NormalCdf.

(** The unnormalised Gaussian density [exp(-t^2/2)]. *)
Definition gauss (t : R) : R := exp (- (t * t) / 2).

Lemma gauss_pos t : 0 < gauss t.
Proof. apply exp_pos. Qed.

(** A derivative can be read off an extensionally equal function. *)
Lemma dlim_eq (f g : R -> R) (x l l' : R) :
  derivable_pt_lim f x l -> (forall y, f y = g y) -> l = l' ->
  derivable_pt_lim g x l'.
Proof.
  intros Hd Hfg <- eps Heps. destruct (Hd eps Heps) as [d Hdl].
  exists d. intros h Hh Hlt. rewrite <- !Hfg. now apply Hdl.
Qed.

Lemma halfsq_deriv x : derivable_pt_lim (fun t => - (t * t) / 2) x (- x).
Proof.
  apply (dlim_eq (fun t => (- (id * id))%F t / 2) _ x (- (1 * id x + id x * 1) / 2)).
  - apply derivable_pt_lim_div_scal, derivable_pt_lim_opp,
      derivable_pt_lim_mult; apply derivable_pt_lim_id.
  - intros y. unfold opp_fct, mult_fct, id. reflexivity.
  - unfold id. field.
Qed.

Lemma gauss_deriv x : derivable_pt_lim gauss x (- x * gauss x).
Proof.
  apply (dlim_eq (comp exp (fun t => - (t * t) / 2)) _ x
           (exp (- (x * x) / 2) * (- x))).
  - apply derivable_pt_lim_comp; [apply halfsq_deriv | apply derivable_pt_lim_exp].
  - reflexivity.
  - unfold gauss. ring.
Qed.

Lemma gauss_continuity : continuity gauss.
Proof.
  intros x. apply derivable_continuous_pt.
  exists (- x * gauss x). apply gauss_deriv.
Qed.

(** The density is continuous, hence Riemann integrable on every
    interval, in either orientation. *)
Lemma gauss_integrable (a b : R) : Riemann_integrable gauss a b.
Proof.
  destruct (Rle_dec a b) as [Hab | Hab].
  - apply continuity_implies_RiemannInt; [assumption | intros; apply gauss_continuity].
  - apply RiemannInt_P1, continuity_implies_RiemannInt;
      [lra | intros; apply gauss_continuity].
Qed.

(** The integral of [gauss] from [a] to [b]. *)
Definition gauss_int (a b : R) : R := RiemannInt (gauss_integrable a b).

Lemma gauss_int_chasles a b c : gauss_int a b + gauss_int b c = gauss_int a c.
Proof. apply RiemannInt_P26. Qed.

Lemma gauss_int_refl a : gauss_int a a = 0.
Proof. apply RiemannInt_P9. Qed.

(** Fundamental theorem of calculus for [gauss_int a]. *)
Lemma gauss_int_deriv a x : derivable_pt_lim (gauss_int a) x (gauss x).
Proof.
  assert (Hle : x - 1 <= x + 1) by lra.
  assert (C0 : forall y, x - 1 <= y <= x + 1 -> continuity_pt gauss y)
    by (intros; apply gauss_continuity).
  assert (HP := RiemannInt_P27 Hle C0 (x := x) ltac:(lra)).
  assert (Hloc : forall y, x - 1 <= y <= x + 1 ->
            gauss_int a y = gauss_int a (x - 1) + primitive Hle (FTC_P1 Hle C0) y).
  { intros y [Hy1 Hy2]. rewrite <- (gauss_int_chasles a (x - 1) y). f_equal.
    unfold primitive.
    destruct (Rle_dec (x - 1) y) as [? | ?]; [ | lra].
    destruct (Rle_dec y (x + 1)) as [? | ?]; [ | lra].
    apply RiemannInt_P5. }
  intros eps Heps. destruct (HP eps Heps) as [d Hd].
  assert (Hm : 0 < Rmin d 1) by (apply Rmin_pos; [apply cond_pos | lra]).
  exists (mkposreal _ Hm). simpl. intros h Hh Hlt.
  assert (Rabs h < d) by (eapply Rlt_le_trans; [exact Hlt | apply Rmin_l]).
  assert (Rabs h < 1) by (eapply Rlt_le_trans; [exact Hlt | apply Rmin_r]).
  assert (h < 1 /\ -1 < h) by (apply Rabs_def2; assumption).
  rewrite (Hloc (x + h)) by lra. rewrite (Hloc x) by lra.
  replace (gauss_int a (x - 1) + primitive Hle (FTC_P1 Hle C0) (x + h) -
           (gauss_int a (x - 1) + primitive Hle (FTC_P1 Hle C0) x))
    with (primitive Hle (FTC_P1 Hle C0) (x + h) - primitive Hle (FTC_P1 Hle C0) x)
    by ring.
  now apply Hd.
Qed.

Lemma gauss_int_pos a b : a < b -> 0 < gauss_int a b.
Proof.
  intros Hab.
  destruct (MVT_cor2 (gauss_int a) gauss a b Hab) as [c [Hc Hin]].
  { intros; apply gauss_int_deriv. }
  rewrite gauss_int_refl, Rminus_0_r in Hc. rewrite Hc.
  apply Rmult_lt_0_compat; [apply gauss_pos | lra].
Qed.

(** The density is dominated by [exp(1/2 + x)]: the left tail is
    integrable. *)
Lemma gauss_le_exp x : gauss x <= exp (/ 2 + x).
Proof.
  unfold gauss.
  assert (H : - (x * x) / 2 <= / 2 + x).
  { assert (Hs := Rle_0_sqr (x + 1)). unfold Rsqr in Hs. lra. }
  destruct H as [Hlt | Heq].
  - left. now apply exp_increasing.
  - rewrite Heq. apply Rle_refl.
Qed.

Lemma gauss_int_le_exp a b : a <= b -> gauss_int a b <= exp (/ 2 + b) - exp (/ 2 + a).
Proof.
  intros [Hab | ->]; [ | rewrite gauss_int_refl; lra].
  destruct (MVT_cor2 (fun x => gauss_int a x - exp (/ 2 + x))
              (fun x => gauss x - exp (/ 2 + x)) a b Hab) as [c [Hc Hin]].
  { intros c _.
    apply (dlim_eq (minus_fct (gauss_int a) (comp exp (fun t => / 2 + t))) _ c
             (gauss c - exp (/ 2 + c) * (0 + 1))).
    - apply derivable_pt_lim_minus; [apply gauss_int_deriv | ].
      apply derivable_pt_lim_comp; [ | apply derivable_pt_lim_exp].
      apply (derivable_pt_lim_plus (fct_cte (/ 2)) id);
        [apply derivable_pt_lim_const | apply derivable_pt_lim_id].
    - reflexivity.
    - ring. }
  rewrite gauss_int_refl in Hc.
  assert (Hneg : (gauss c - exp (/ 2 + c)) * (b - a) <= 0).
  { assert (Hg := gauss_le_exp c). nra. }
  lra.
Qed.

(** The integrals over [[-n, 0]] grow with [n] and are bounded; their
    limit is the integral over [(-inf, 0]]. *)
Definition gauss_tail_seq (n : nat) : R := gauss_int (- INR n) 0.

Lemma gauss_tail_seq_growing : Un_growing gauss_tail_seq.
Proof.
  intros n. unfold gauss_tail_seq.
  rewrite <- (gauss_int_chasles (- INR (S n)) (- INR n) 0).
  assert (H : 0 < gauss_int (- INR (S n)) (- INR n)).
  { apply gauss_int_pos. rewrite S_INR. lra. }
  lra.
Qed.

Lemma gauss_tail_seq_bounded : has_ub gauss_tail_seq.
Proof.
  exists (exp (/ 2)). intros y [n ->]. unfold gauss_tail_seq.
  assert (Hn : - INR n <= 0) by (generalize (pos_INR n); lra).
  assert (H := gauss_int_le_exp _ _ Hn).
  assert (Hp := exp_pos (/ 2 + - INR n)).
  rewrite Rplus_0_r in H. lra.
Qed.

Definition gauss_tail : R :=
  proj1_sig (growing_cv gauss_tail_seq gauss_tail_seq_growing gauss_tail_seq_bounded).

Lemma gauss_tail_cv : Un_cv gauss_tail_seq gauss_tail.
Proof.
  unfold gauss_tail.
  apply (proj2_sig (growing_cv gauss_tail_seq gauss_tail_seq_growing
                      gauss_tail_seq_bounded)).
Qed.

(** The standard normal distribution function: the integral of the
    density [phi] over [(-inf, x]]. *)
Definition Phi (x : R) : R := / sqrt (2 * PI) * (gauss_tail + gauss_int 0 x).
(** The standard normal density. *)
Definition phi (x : R) : R := / sqrt (2 * PI) * gauss x.

Lemma norm_const_pos : 0 < / sqrt (2 * PI).
Proof.
  apply Rinv_0_lt_compat, sqrt_lt_R0. generalize PI_RGT_0; lra.
Qed.

Lemma gauss_tail_ge n : gauss_int (- INR n) 0 <= gauss_tail.
Proof.
  apply (growing_ineq gauss_tail_seq); [apply gauss_tail_seq_growing | apply gauss_tail_cv].
Qed.

Lemma gauss_tail_le n : gauss_tail <= gauss_int (- INR n) 0 + exp (/ 2 - INR n).
Proof.
  apply Rle_cv_lim with (Un := gauss_tail_seq)
    (Vn := fun _ => gauss_int (- INR n) 0 + exp (/ 2 - INR n));
    [ | apply gauss_tail_cv | ].
  - intros m. unfold gauss_tail_seq.
    destruct (Rle_dec (- INR m) (- INR n)) as [Hle | Hgt].
    + rewrite <- (gauss_int_chasles (- INR m) (- INR n) 0).
      assert (H := gauss_int_le_exp _ _ Hle).
      assert (Hp := exp_pos (/ 2 + - INR m)).
      replace (/ 2 - INR n) with (/ 2 + - INR n) by ring. lra.
    + assert (Hlt : - INR n < - INR m) by lra.
      rewrite <- (gauss_int_chasles (- INR n) (- INR m) 0).
      assert (H := gauss_int_pos _ _ Hlt).
      assert (Hp := exp_pos (/ 2 - INR n)). lra.
  - intros eps Heps. exists 0%nat. intros k _.
    unfold R_dist. rewrite Rminus_diag, Rabs_R0. exact Heps.
Qed.

Lemma Phi_pos x : 0 < Phi x.
Proof.
  unfold Phi. apply Rmult_lt_0_compat; [apply norm_const_pos | ].
  destruct (INR_unbounded (- x)) as [n Hn].
  assert (Hlt : - INR n < x) by lra.
  assert (H1 := gauss_tail_ge n).
  assert (H2 := gauss_int_pos _ _ Hlt).
  rewrite <- (gauss_int_chasles (- INR n) 0 x) in H2. lra.
Qed.

Lemma Phi_deriv x : derivable_pt_lim Phi x (phi x).
Proof.
  apply (dlim_eq (mult_real_fct (/ sqrt (2 * PI)) (plus_fct (fct_cte gauss_tail) (gauss_int 0)))
           _ x (/ sqrt (2 * PI) * (0 + gauss x))).
  - apply derivable_pt_lim_scal, derivable_pt_lim_plus;
      [apply derivable_pt_lim_const | apply gauss_int_deriv].
  - reflexivity.
  - unfold phi. ring.
Qed.

Lemma phi_pos x : 0 < phi x.
Proof. apply Rmult_lt_0_compat; [apply norm_const_pos | apply gauss_pos]. Qed.

Lemma Phi_increasing a b : a < b -> Phi a < Phi b.
Proof.
  intros Hab.
  destruct (MVT_cor2 Phi phi a b Hab) as [c [Hc _]];
    [intros; apply Phi_deriv | ].
  assert (H := phi_pos c). nra.
Qed.

Lemma phi_deriv x : derivable_pt_lim phi x (- x * phi x).
Proof.
  apply (dlim_eq (mult_real_fct (/ sqrt (2 * PI)) gauss) _ x
           (/ sqrt (2 * PI) * (- x * gauss x))).
  - apply derivable_pt_lim_scal, gauss_deriv.
  - reflexivity.
  - unfold phi. ring.
Qed.

(** [x Phi(x) + phi(x)], the derivative of [x |-> exp(x^2/2) Phi(x)] up to
    the factor [exp(x^2/2)]; it is positive everywhere. *)
Definition mills (x : R) : R := x * Phi x + phi x.

Lemma mills_deriv x : derivable_pt_lim mills x (Phi x).
Proof.
  apply (dlim_eq (plus_fct (mult_fct id Phi) phi) _ x
           (1 * Phi x + id x * phi x + - x * phi x)).
  - apply derivable_pt_lim_plus; [ | apply phi_deriv].
    apply derivable_pt_lim_mult; [apply derivable_pt_lim_id | apply Phi_deriv].
  - reflexivity.
  - unfold id. ring.
Qed.

Lemma mills_increasing a b : a < b -> mills a < mills b.
Proof.
  intros Hab.
  destruct (MVT_cor2 mills Phi a b Hab) as [c [Hc _]];
    [intros; apply mills_deriv | ].
  assert (H := Phi_pos c). nra.
Qed.

Lemma exp_quadratic y : 0 < y -> y * y / 4 < exp y.
Proof.
  intros Hy.
  replace y with (y / 2 + y / 2) at 3 by field.
  rewrite exp_plus.
  assert (H := exp_ineq1_le (y / 2)). nra.
Qed.

(** The left tail of [Phi] decays at least exponentially. *)
Lemma Phi_tail_bound n : Phi (- INR n) <= / sqrt (2 * PI) * exp (/ 2 - INR n).
Proof.
  unfold Phi. apply Rmult_le_compat_l; [left; apply norm_const_pos | ].
  assert (H := gauss_tail_le n).
  assert (Hc := gauss_int_chasles 0 (- INR n) 0).
  rewrite gauss_int_refl in Hc. lra.
Qed.

Lemma mills_nonneg x : 0 <= mills x.
Proof.
  destruct (Rle_lt_dec 0 (mills x)) as [H | Hneg]; [exact H | exfalso].
  set (C := / sqrt (2 * PI) * exp (/ 2)).
  assert (HC : 0 < C)
    by (apply Rmult_lt_0_compat; [apply norm_const_pos | apply exp_pos]).
  destruct (INR_unbounded (Rmax (Rmax (- x) 1) (4 * C / - mills x))) as [n Hn].
  assert (Hn1 : INR n > - x /\ INR n > 1).
  { split; (eapply Rle_lt_trans; [ | exact Hn]);
      (eapply Rle_trans; [ | apply Rmax_l]); [apply Rmax_l | apply Rmax_r]. }
  assert (Hn2 : 4 * C / - mills x < INR n)
    by (eapply Rle_lt_trans; [apply Rmax_r | exact Hn]).
  destruct Hn1 as [Hnx Hn1].
  assert (Hm := mills_increasing (- INR n) x ltac:(lra)).
  assert (Ht := Phi_tail_bound n).
  assert (Hp := phi_pos (- INR n)).
  assert (He := exp_quadratic (INR n) ltac:(lra)).
  unfold mills in Hm at 1.
  replace (/ 2 - INR n) with (/ 2 + - INR n) in Ht by ring.
  rewrite exp_plus, exp_Ropp, <- Rmult_assoc in Ht. fold C in Ht.
  set (E := exp (INR n)) in *. set (P := Phi (- INR n)) in *.
  set (m := mills x) in *. set (N := INR n) in *.
  assert (HE : 0 < E) by apply exp_pos.
  assert (HPE : P * E <= C).
  { apply Rmult_le_compat_r with (r := E) in Ht; [ | lra].
    replace (C * / E * E) with C in Ht by (field; lra). exact Ht. }
  assert (Hn3 : 4 * C < N * - m).
  { apply Rmult_lt_compat_r with (r := - m) in Hn2; [ | lra].
    replace (4 * C / - m * - m) with (4 * C) in Hn2 by (field; lra). exact Hn2. }
  assert (HNP : - m < N * P) by lra.
  assert (HP0 : 0 < P) by apply Phi_pos.
  (* 4 C < N (-m) < N N P, and N N < 4 E, P E <= C *)
  assert (H1 : N * - m < N * (N * P)) by (apply Rmult_lt_compat_l; lra).
  assert (H2 : N * N * P * E <= N * N * C).
  { rewrite Rmult_assoc. apply Rmult_le_compat_l; [nra | exact HPE]. }
  assert (H3 : 4 * C * E < N * N * P * E) by nra.
  assert (H4 : N * N * C < 4 * E * C) by nra.
  lra.
Qed.

Lemma mills_pos x : 0 < mills x.
Proof.
  assert (H1 := mills_nonneg (x - 1)).
  assert (H2 := mills_increasing (x - 1) x ltac:(lra)). lra.
Qed.

(** [Phi(x) / gauss(x)]; it is strictly increasing, which is what makes
    Black-Scholes prices positive. *)
Definition mills_ratio (x : R) : R := exp (x * x / 2) * Phi x.

Lemma mills_ratio_deriv x :
  derivable_pt_lim mills_ratio x (exp (x * x / 2) * mills x).
Proof.
  apply (dlim_eq (mult_fct (comp exp (fun t => t * t / 2)) Phi) _ x
           (exp (x * x / 2) * x * Phi x + exp (x * x / 2) * phi x)).
  - apply (derivable_pt_lim_mult (comp exp (fun t => t * t / 2)) Phi x
             (exp (x * x / 2) * x) (phi x)); [ | apply Phi_deriv].
    apply (derivable_pt_lim_comp (fun t => t * t / 2) exp);
      [ | apply derivable_pt_lim_exp].
    apply (dlim_eq (fun t => (mult_fct id id) t / 2) _ x ((1 * id x + id x * 1) / 2)).
    + apply (derivable_pt_lim_div_scal (mult_fct id id)), derivable_pt_lim_mult;
        apply derivable_pt_lim_id.
    + reflexivity.
    + unfold id. field.
  - reflexivity.
  - unfold mills. ring.
Qed.

Lemma mills_ratio_increasing a b : a < b -> mills_ratio a < mills_ratio b.
Proof.
  intros Hab.
  destruct (MVT_cor2 mills_ratio (fun x => exp (x * x / 2) * mills x) a b Hab)
    as [c [Hc _]]; [intros; apply mills_ratio_deriv | ].
  assert (H : 0 < exp (c * c / 2) * mills c)
    by (apply Rmult_lt_0_compat; [apply exp_pos | apply mills_pos]).
  assert (H' : 0 < exp (c * c / 2) * mills c * (b - a))
    by (apply Rmult_lt_0_compat; lra).
  lra.
Qed.

(** [Phi] tends to 0 at minus infinity. *)
Lemma Phi_limit_minus_infinity (eps : R) :
  0 < eps -> exists M, forall x, x < M -> Phi x < eps.
Proof.
  intros Heps.
  set (C := / sqrt (2 * PI) * exp (/ 2)).
  assert (HC : 0 < C)
    by (apply Rmult_lt_0_compat; [apply norm_const_pos | apply exp_pos]).
  destruct (INR_unbounded (C / eps)) as [n Hn].
  exists (- INR n). intros x Hx.
  apply Rlt_le_trans with (Phi (- INR n)); [now apply Phi_increasing | ].
  eapply Rle_trans; [apply Phi_tail_bound | ].
  replace (/ 2 - INR n) with (/ 2 + - INR n) by ring.
  rewrite exp_plus, exp_Ropp, <- Rmult_assoc. fold C.
  assert (Hq : 0 < C / eps) by (apply Rdiv_lt_0_compat; assumption).
  assert (He := exp_ineq1_le (INR n)).
  assert (HE : 0 < exp (INR n)) by apply exp_pos.
  assert (Hlt : C < eps * exp (INR n)).
  { apply Rmult_lt_compat_r with (r := eps) in Hn; [ | exact Heps].
    replace (C / eps * eps) with C in Hn by (field; lra). nra. }
  apply Rmult_le_reg_r with (r := exp (INR n)); [exact HE | ].
  replace (C * / exp (INR n) * exp (INR n)) with C by (field; lra).
  lra.
Qed.

End NormalCdf.

(** ** NumPy floats as extended reals *)

Inductive npfloat : Type :=
| Fin (x : R)
| PInf
| NInf
| NaN.

(** The product [x * inf] of a finite [x] with [+inf]. *)
Definition inf_of_sign (x : R) : npfloat :=
  if Rlt_dec 0 x then PInf else if Rlt_dec x 0 then NInf else NaN.

Definition np_neg (a : npfloat) : npfloat :=
  match a with
  | Fin x => Fin (- x)
  | PInf => NInf
  | NInf => PInf
  | NaN => NaN
  end.

Definition np_add (a b : npfloat) : npfloat :=
  match a, b with
  | NaN, _ | _, NaN => NaN
  | Fin x, Fin y => Fin (x + y)
  | PInf, NInf | NInf, PInf => NaN
  | PInf, _ | _, PInf => PInf
  | NInf, _ | _, NInf => NInf
  end.

Definition np_sub (a b : npfloat) : npfloat := np_add a (np_neg b).

Definition np_mul (a b : npfloat) : npfloat :=
  match a, b with
  | NaN, _ | _, NaN => NaN
  | Fin x, Fin y => Fin (x * y)
  | Fin x, PInf | PInf, Fin x => inf_of_sign x
  | Fin x, NInf | NInf, Fin x => inf_of_sign (- x)
  | PInf, PInf | NInf, NInf => PInf
  | PInf, NInf | NInf, PInf => NInf
  end.

(** Division; a finite value over zero is [inf] with the sign of the
    numerator, and [0/0] is [NaN]. *)
Definition np_div (a b : npfloat) : npfloat :=
  match a, b with
  | NaN, _ | _, NaN => NaN
  | Fin x, Fin y => if Req_EM_T y 0 then inf_of_sign x else Fin (x / y)
  | Fin _, PInf | Fin _, NInf => Fin 0
  | PInf, Fin y => if Rlt_dec y 0 then NInf else PInf
  | NInf, Fin y => if Rlt_dec y 0 then PInf else NInf
  | PInf, PInf | PInf, NInf | NInf, PInf | NInf, NInf => NaN
  end.

(** [np.log] *)
Definition np_log (a : npfloat) : npfloat :=
  match a with
  | Fin x => if Rlt_dec 0 x then Fin (ln x)
             else if Req_EM_T x 0 then NInf else NaN
  | PInf => PInf
  | NInf => NaN
  | NaN => NaN
  end.

(** [np.sqrt] *)
Definition np_sqrt (a : npfloat) : npfloat :=
  match a with
  | Fin x => if Rlt_dec x 0 then NaN else Fin (sqrt x)
  | PInf => PInf
  | NInf => NaN
  | NaN => NaN
  end.

(** [np.exp] *)
Definition np_exp (a : npfloat) : npfloat :=
  match a with
  | Fin x => Fin (exp x)
  | PInf => PInf
  | NInf => Fin 0
  | NaN => NaN
  end.

(** [scipy.stats.norm.cdf] *)
Definition norm_cdf (a : npfloat) : npfloat :=
  match a with
  | Fin x => Fin (NormalCdf.Phi x)
  | PInf => Fin 1
  | NInf => Fin 0
  | NaN => NaN
  end.

(** The comparisons [a > b], [a >= b] and [a < b]; any comparison with
    [NaN] is false. *)
Definition np_gtb (a b : npfloat) : bool :=
  match a, b with
  | NaN, _ | _, NaN => false
  | Fin x, Fin y => if Rlt_dec y x then true else false
  | PInf, PInf | NInf, _ | _, PInf => false
  | PInf, _ | _, NInf => true
  end.

Definition np_geb (a b : npfloat) : bool :=
  match a, b with
  | NaN, _ | _, NaN => false
  | Fin x, Fin y => if Rle_dec y x then true else false
  | PInf, _ | _, NInf => true
  | NInf, _ | _, PInf => false
  end.

Definition np_ltb (a b : npfloat) : bool := np_gtb b a.

Definition is_nan (a : npfloat) : bool :=
  match a with NaN => true | _ => false end.

(** [ndarray.sum()]: left-to-right sum starting from [0.0]. *)
Definition np_sum (xs : list npfloat) : npfloat := fold_left np_add xs (Fin 0).

(** [Series.sum()]: pandas skips [NaN] entries ([skipna=True]); the sum
    of an empty Series is [0.0]. *)
Definition pandas_sum (xs : list npfloat) : npfloat :=
  np_sum (filter (fun x => negb (is_nan x)) xs).

(** ** Python calls: a value or an exception *)

Inductive exn : Type := ValueError.

Inductive outcome (A : Type) : Type :=
| Return (a : A)
| Raise (e : exn).
Arguments Return {A} a.
Arguments Raise {A} e.

Definition bind {A B : Type} (m : outcome A) (k : A -> outcome B) : outcome B :=
  match m with
  | Return a => k a
  | Raise e => Raise e
  end.

Notation "x <- m ;; k" := (bind m (fun x => k))
  (at level 61, m at next level, right associativity).

Fixpoint mapM {A B : Type} (f : A -> outcome B) (xs : list A) : outcome (list B) :=
  match xs with
  | [] => Return []
  | x :: xs' => y <- f x ;; ys <- mapM f xs' ;; Return (y :: ys)
  end.

(** ** The notebook's functions *)

(** [a ** 2] *)
Definition np_pow2 (a : npfloat) : npfloat := np_mul a a.

(** [bs_elasticity(S, K, T, r, sigma, option_type='call')].  The returned
    Python tuple is the list of its components.  Any [option_type] other
    than ['call'] takes the [else] branch. *)
Definition bs_elasticity (S K T r sigma : npfloat) (option_type : string)
  : outcome (list npfloat) :=
  let d1 :=
    np_div
      (np_add (np_log (np_div S K))
         (np_mul (np_add r (np_mul (Fin (1 / 2)) (np_pow2 sigma))) T))
      (np_mul sigma (np_sqrt T)) in
  if String.eqb option_type "call"%string then
    let price :=
      np_sub (np_mul S (norm_cdf d1))
        (np_mul (np_mul K (np_exp (np_mul (np_neg r) T)))
           (norm_cdf (np_sub d1 (np_mul sigma (np_sqrt T))))) in
    let delta := norm_cdf d1 in
    Return [np_div (np_mul delta S) price; price]
  else
    let price :=
      np_sub
        (np_mul (np_mul K (np_exp (np_mul (np_neg r) T)))
           (norm_cdf (np_add (np_neg d1) (np_mul sigma (np_sqrt T)))))
        (np_mul S (norm_cdf (np_neg d1))) in
    let delta := np_neg (norm_cdf (np_neg d1)) in
    Return [np_div (np_mul delta S) price; price].

(** [np.column_stack((a, b))] of two one-dimensional arrays: the rows
    [(a_i, b_i)]; arrays of different lengths cannot be stacked. *)
Definition column_stack (a b : list npfloat) : outcome (list (npfloat * npfloat)) :=
  if Nat.eqb (List.length a) (List.length b) then Return (combine a b)
  else Raise ValueError.

(** [cdist(grid, point, 'euclidean')[:, 0]] for a single [point]. *)
Definition cdist_euclidean (grid : list (npfloat * npfloat))
  (point : npfloat * npfloat) : list npfloat :=
  map (fun g =>
         np_sqrt (np_add (np_pow2 (np_sub (fst g) (fst point)))
                    (np_pow2 (np_sub (snd g) (snd point)))))
    grid.

(** Element-wise division of two one-dimensional arrays under NumPy
    broadcasting: equal lengths divide entry by entry, a length-1 array
    is stretched, any other pair of shapes raises [ValueError]. *)
Definition broadcast_div (xs ys : list npfloat) : outcome (list npfloat) :=
  if Nat.eqb (List.length xs) (List.length ys) then
    Return (map (fun p => np_div (fst p) (snd p)) (combine xs ys))
  else
    match xs, ys with
    | [x], _ => Return (map (fun y => np_div x y) ys)
    | _, [y] => Return (map (fun x => np_div x y) xs)
    | _, _ => Raise ValueError
    end.

(** Default bandwidths [bw_m=0.0125] and [bw_t=10]. *)
Definition bw_m_default : npfloat := Fin (1 / 80).
Definition bw_t_default : npfloat := Fin 10.

(** [kernel_weights(moneyness_grid, maturity_grid, k_s, ttm, bw_m, bw_t)].
    [dists / np.array([bw_m, bw_t])] broadcasts the per-quote distances
    against the two bandwidths, and [.sum()] reduces the quotient to one
    number, so [weights] is a scalar and so is the result. *)
Definition kernel_weights (moneyness_grid maturity_grid : list npfloat)
  (k_s ttm bw_m bw_t : npfloat) : outcome npfloat :=
  grid <- column_stack moneyness_grid maturity_grid ;;
  let dists := cdist_euclidean grid (k_s, ttm) in
  scaled <- broadcast_div dists [bw_m; bw_t] ;;
  let weights := np_exp (np_mul (Fin (- (1 / 2))) (np_sum scaled)) in
  Return (np_div weights weights).

(** One row of the quote table.  [implied_rate] is the derived column of
    the filtration stage; the notebook never reads it. *)
Record quote : Type := mkQuote {
  option_type : string;
  moneyness : npfloat;
  ttm : npfloat;
  underlying : npfloat;
  strike : npfloat;
  iv : npfloat;
  daily_return : npfloat;
  implied_rate : npfloat
}.

(** A row of [subset] once the [weight] column is assigned. *)
Record member : Type := mkMember {
  row : quote;
  weight : npfloat
}.

(** [data[(data['option_type'] == option_type)]] *)
Definition select_type (data : list quote) (ty : string) : list quote :=
  filter (fun q => String.eqb (option_type q) ty) data.

(** [subset.assign(weight=weights)]: the scalar is given to every row. *)
Definition weighted_subset (data : list quote) (k_s_target ttm_target : npfloat)
  (ty : string) : outcome (list member) :=
  let subset := select_type data ty in
  weights <- kernel_weights (map moneyness subset) (map ttm subset)
               k_s_target ttm_target bw_m_default bw_t_default ;;
  Return (map (fun q => mkMember q weights) subset).

(** [subset[subset['weight'] > 0.01]] *)
Definition drop_small (ms : list member) : list member :=
  filter (fun m => np_gtb (weight m) (Fin (1 / 100))) ms.

(** [subset['weight'] /= subset['weight'].sum()] *)
Definition renormalize (ms : list member) : list member :=
  let total := pandas_sum (map weight ms) in
  map (fun m => mkMember (row m) (np_div (weight m) total)) ms.

(** The rows of [subset], with their weights, that enter the return. *)
Definition surviving_members (data : list quote) (k_s_target ttm_target : npfloat)
  (ty : string) : outcome (list member) :=
  ms <- weighted_subset data k_s_target ttm_target ty ;;
  Return (renormalize (drop_small ms)).

(** The first component of [bs_elasticity] on one row;
    [elast, price = bs_elasticity(...)] unpacks a 2-tuple and raises
    [ValueError] on any other size. *)
Definition elasticity_of (r : npfloat) (ty : string) (q : quote) : outcome npfloat :=
  res <- bs_elasticity (underlying q) (strike q) (np_div (ttm q) (Fin 365))
           r (iv q) ty ;;
  match res with
  | [elast; _] => Return elast
  | _ => Raise ValueError
  end.

(** [subset['daily_return'] / elast] on one row. *)
Definition leverage_return (r : npfloat) (ty : string) (q : quote) : outcome npfloat :=
  elast <- elasticity_of r ty q ;;
  Return (np_div (daily_return q) elast).

(** [construct_portfolio(data, k_s_target, ttm_target, option_type, r)].
    The vectorised call of [bs_elasticity] on the columns of [subset] is
    the row-by-row call. *)
Definition construct_portfolio (data : list quote) (k_s_target ttm_target : npfloat)
  (ty : string) (r : npfloat) : outcome npfloat :=
  ms <- surviving_members data k_s_target ttm_target ty ;;
  lev <- mapM (leverage_return r ty) (map row ms) ;;
  Return (pandas_sum
            (map (fun p => np_mul (fst p) (snd p)) (combine lev (map weight ms)))).

(** Default rate [r=0.01] of [construct_portfolio]. *)
Definition r_default : npfloat := Fin (1 / 100).

(** One dictionary appended to [portfolios]. *)
Record portfolio_record : Type := mkRecord {
  p_type : string;
  p_moneyness : npfloat;
  p_ttm : npfloat;
  p_return : npfloat
}.

(** A [for] loop whose body appends records; the first exception ends
    the loop and propagates. *)
Fixpoint for_each {A B : Type} (xs : list A) (body : A -> outcome (list B))
  : outcome (list B) :=
  match xs with
  | [] => Return []
  | x :: xs' => rs <- body x ;; rest <- for_each xs' body ;; Return (rs ++ rest)%list
  end.

(** [build_portfolios(option_data, m_grid, ttm_grid, option_types)] *)
Definition build_portfolios (option_data : list quote) (m_grid ttm_grid : list npfloat)
  (option_types : list string) : outcome (list portfolio_record) :=
  for_each option_types (fun opt_type =>
    for_each m_grid (fun k_s =>
      for_each ttm_grid (fun ttm_ =>
        ret <- construct_portfolio option_data k_s ttm_ opt_type r_default ;;
        Return [mkRecord opt_type k_s ttm_ ret]))).

(** ** The closed-form Black-Scholes quantities, as the specification
    writes them *)

Definition spec_d1 (S K T r sigma : R) : R :=
  (ln (S / K) + (r + sigma ^ 2 / 2) * T) / (sigma * sqrt T).

Definition spec_call_price (S K T r sigma : R) : R :=
  S * NormalCdf.Phi (spec_d1 S K T r sigma)
  - K * exp (- r * T) * NormalCdf.Phi (spec_d1 S K T r sigma - sigma * sqrt T).

Definition spec_call_delta (S K T r sigma : R) : R :=
  NormalCdf.Phi (spec_d1 S K T r sigma).

Definition spec_put_price (S K T r sigma : R) : R :=
  K * exp (- r * T) * NormalCdf.Phi (- spec_d1 S K T r sigma + sigma * sqrt T)
  - S * NormalCdf.Phi (- spec_d1 S K T r sigma).

Definition spec_put_delta (S K T r sigma : R) : R :=
  - NormalCdf.Phi (- spec_d1 S K T r sigma).

(** ** Quantities derived from the notebook's functions, and sample tables *)

(** The elasticity that [construct_portfolio] divides by on one row. *)
Definition elasticity (r : npfloat) (ty : string) (q : quote) : npfloat :=
  match elasticity_of r ty q with
  | Return e => e
  | Raise _ => NaN
  end.

(** The term a member contributes to the bucket return:
    [leverage_return * weight]. *)
Definition weighted_leverage_return (r : npfloat) (ty : string) (m : member) : npfloat :=
  np_mul (np_div (daily_return (row m)) (elasticity r ty (row m))) (weight m).

(** The identifiers of the buckets, option type outermost, then
    moneyness, then maturity. *)
Definition bucket_ids (option_types : list string) (m_grid ttm_grid : list npfloat)
  : list (string * npfloat * npfloat) :=
  flat_map (fun ty =>
    flat_map (fun k_s => map (fun t => (ty, k_s, t)) ttm_grid) m_grid)
    option_types.

(** Two rows that agree on every column except [implied_rate]. *)
Definition same_but_rate (q1 q2 : quote) : Prop :=
  option_type q1 = option_type q2
  /\ moneyness q1 = moneyness q2
  /\ ttm q1 = ttm q2
  /\ underlying q1 = underlying q2
  /\ strike q1 = strike q2
  /\ iv q1 = iv q2
  /\ daily_return q1 = daily_return q2.

Definition forget_rate (q : quote) : quote :=
  mkQuote (option_type q) (moneyness q) (ttm q) (underlying q) (strike q) (iv q)
    (daily_return q) (Fin 0).

Definition forget_member_rate (m : member) : member :=
  mkMember (forget_rate (row m)) (weight m).

(** A call quoted at the money, 30 days from expiry. *)
Definition atm_call (ret : npfloat) : quote :=
  mkQuote "call" (Fin 1) (Fin 30) (Fin 100) (Fin 100) (Fin (1 / 5)) ret (Fin 0).

(** A call whose underlying level, and with it the moneyness, is missing
    ([NaN]). *)
Definition call_without_moneyness : quote :=
  mkQuote "call" NaN (Fin 30) NaN (Fin 100) (Fin (1 / 5)) (Fin (1 / 100))
    (Fin 0).

(** Three calls around the money, 30 days from expiry. *)
Definition three_calls : list quote :=
  [ mkQuote "call" (Fin (19 / 20)) (Fin 30) (Fin 100) (Fin 95) (Fin (1 / 5))
      (Fin (1 / 100)) (Fin 0);
    mkQuote "call" (Fin 1) (Fin 30) (Fin 100) (Fin 100) (Fin (1 / 5))
      (Fin (1 / 100)) (Fin 0);
    mkQuote "call" (Fin (21 / 20)) (Fin 30) (Fin 100) (Fin 105) (Fin (1 / 5))
      (Fin (1 / 100)) (Fin 0) ].

(** A put quoted at the money, 30 days from expiry. *)
Definition atm_put (ret : npfloat) : quote :=
  mkQuote "put" (Fin 1) (Fin 30) (Fin 100) (Fin 100) (Fin (1 / 5)) ret (Fin 0).

(** A row whose pricing inputs are valid finite numbers and whose daily
    return is finite. *)
Definition valid_row (q : quote) : Prop :=
  exists S K t sigma rho,
    underlying q = Fin S /\ strike q = Fin K /\ ttm q = Fin t
    /\ iv q = Fin sigma /\ daily_return q = Fin rho
    /\ 0 < S /\ 0 < K /\ 0 < t /\ 0 < sigma.

(** The real value of a finite float, 0 otherwise. *)
Definition fin_value (a : npfloat) : R :=
  match a with
  | Fin x => x
  | _ => 0
  end.

Definition sum_list (xs : list R) : R := fold_right Rplus 0 xs.

(** The elasticity of the closed form on the columns of a row, read as
    real numbers. *)
Definition row_elasticity (r0 : R) (ty : string) (q : quote) : R :=
  let S := fin_value (underlying q) in
  let K := fin_value (strike q) in
  let T := fin_value (ttm q) / 365 in
  let sigma := fin_value (iv q) in
  if String.eqb ty "call"
  then spec_call_delta S K T r0 sigma * S / spec_call_price S K T r0 sigma
  else spec_put_delta S K T r0 sigma * S / spec_put_price S K T r0 sigma.

(** A row whose pricing inputs are valid finite numbers and whose daily
    return is a finite number or missing. *)
Definition priced_row (q : quote) : Prop :=
  (exists S K t sigma,
      underlying q = Fin S /\ strike q = Fin K /\ ttm q = Fin t /\ iv q = Fin sigma
      /\ 0 < S /\ 0 < K /\ 0 < t /\ 0 < sigma)
  /\ ((exists rho, daily_return q = Fin rho) \/ daily_return q = NaN).

(** Two calls 30 days from expiry, one at the money and one 10% out of
    the money. *)
Definition two_calls : list quote :=
  [ mkQuote "call" (Fin 1) (Fin 30) (Fin 100) (Fin 100) (Fin (1 / 5))
      (Fin (1 / 100)) (Fin 0);
    mkQuote "call" (Fin (11 / 10)) (Fin 30) (Fin 100) (Fin 110) (Fin (1 / 5))
      (Fin (1 / 100)) (Fin 0) ].

(** The weight the README and the specification describe: a bivariate
    Gaussian kernel on the moneyness and maturity distances to the
    target, with bandwidths 0.0125 and 10 days. *)
Definition intended_kernel (m t k tt : R) : R :=
  exp (- (1 / 2) * (((m - k) / (1 / 80)) ^ 2 + ((t - tt) / 10) ^ 2)).

(** The intended weights of a list of (moneyness, maturity) pairs,
    normalized to sum to 1. *)
Definition intended_weights (quotes : list (R * R)) (k tt : R) : list R :=
  let ws := map (fun q => intended_kernel (fst q) (snd q) k tt) quotes in
  map (fun w => w / sum_list ws) ws.

Section BlackScholesReal.

Import NormalCdf.

Variables S K T r sigma : R.
Hypothesis HS : 0 < S.
Hypothesis HK : 0 < K.
Hypothesis HT : 0 < T.
Hypothesis Hsigma : 0 < sigma.

Let d1 := spec_d1 S K T r sigma.
Let sT := sigma * sqrt T.

Lemma vol_sqrt_time_pos : 0 < sigma * sqrt T.
Proof. apply Rmult_lt_0_compat; [exact Hsigma | now apply sqrt_lt_R0]. Qed.

Lemma halfsq_difference :
  (d1 * d1 - (d1 - sT) * (d1 - sT)) / 2 = ln (S / K) + r * T.
Proof.
  assert (HsT := vol_sqrt_time_pos). fold sT in HsT.
  assert (Hd : d1 * sT = ln (S / K) + (r + sigma ^ 2 / 2) * T).
  { unfold d1, spec_d1. fold sT. field. lra. }
  assert (Hsq : sT * sT = sigma ^ 2 * T).
  { unfold sT. replace (sigma * sqrt T * (sigma * sqrt T))
      with (sigma ^ 2 * (sqrt T * sqrt T)) by ring.
    rewrite sqrt_sqrt by lra. reflexivity. }
  replace ((d1 * d1 - (d1 - sT) * (d1 - sT)) / 2)
    with (d1 * sT - sT * sT / 2) by field.
  rewrite Hd, Hsq. field.
Qed.

(** The forward identity [S = K e^{-rT} exp((d1^2 - d2^2)/2)]. *)
Lemma spot_from_strike :
  S = K * exp (- r * T) * exp ((d1 * d1 - (d1 - sT) * (d1 - sT)) / 2).
Proof.
  rewrite halfsq_difference, Rmult_assoc, <- exp_plus.
  replace (- r * T + (ln (S / K) + r * T)) with (ln (S / K)) by ring.
  rewrite exp_ln by (apply Rdiv_lt_0_compat; assumption).
  field. lra.
Qed.

Lemma discounted_strike_pos : 0 < K * exp (- r * T).
Proof. apply Rmult_lt_0_compat; [exact HK | apply exp_pos]. Qed.

Lemma call_price_pos : 0 < spec_call_price S K T r sigma.
Proof.
  unfold spec_call_price. fold d1 sT.
  assert (HsT := vol_sqrt_time_pos). fold sT in HsT.
  assert (Hk := discounted_strike_pos).
  assert (Hm := mills_ratio_increasing (d1 - sT) d1 ltac:(lra)).
  unfold mills_ratio in Hm.
  rewrite spot_from_strike at 1.
  replace ((d1 * d1 - (d1 - sT) * (d1 - sT)) / 2)
    with (- ((d1 - sT) * (d1 - sT) / 2) + d1 * d1 / 2) by field.
  rewrite exp_plus, exp_Ropp.
  set (k := K * exp (- r * T)) in *.
  set (e2 := exp ((d1 - sT) * (d1 - sT) / 2)) in *.
  assert (He2 : 0 < e2) by apply exp_pos.
  set (A := exp (d1 * d1 / 2) * Phi d1) in *.
  set (B := Phi (d1 - sT)) in *.
  replace (k * (/ e2 * exp (d1 * d1 / 2)) * Phi d1 - k * B)
    with (k * / e2 * (A - e2 * B)) by (unfold A; field; lra).
  apply Rmult_lt_0_compat; [ | lra].
  apply Rmult_lt_0_compat; [exact Hk | now apply Rinv_0_lt_compat].
Qed.

Lemma put_price_pos : 0 < spec_put_price S K T r sigma.
Proof.
  unfold spec_put_price. fold d1 sT.
  assert (HsT := vol_sqrt_time_pos). fold sT in HsT.
  assert (Hk := discounted_strike_pos).
  assert (Hm := mills_ratio_increasing (- d1) (- d1 + sT) ltac:(lra)).
  unfold mills_ratio in Hm.
  replace (- d1 * - d1 / 2) with (d1 * d1 / 2) in Hm by field.
  replace ((- d1 + sT) * (- d1 + sT) / 2)
    with ((d1 - sT) * (d1 - sT) / 2) in Hm by field.
  rewrite spot_from_strike at 1.
  replace ((d1 * d1 - (d1 - sT) * (d1 - sT)) / 2)
    with (- ((d1 - sT) * (d1 - sT) / 2) + d1 * d1 / 2) by field.
  rewrite exp_plus, exp_Ropp.
  set (k := K * exp (- r * T)) in *.
  set (e2 := exp ((d1 - sT) * (d1 - sT) / 2)) in *.
  assert (He2 : 0 < e2) by apply exp_pos.
  set (A := exp (d1 * d1 / 2) * Phi (- d1)) in *.
  set (B := Phi (- d1 + sT)) in *.
  replace (k * B - k * (/ e2 * exp (d1 * d1 / 2)) * Phi (- d1))
    with (k * / e2 * (e2 * B - A)) by (unfold A; field; lra).
  apply Rmult_lt_0_compat; [ | lra].
  apply Rmult_lt_0_compat; [exact Hk | now apply Rinv_0_lt_compat].
Qed.

Lemma call_elasticity_gt_1 :
  1 < spec_call_delta S K T r sigma * S / spec_call_price S K T r sigma.
Proof.
  assert (Hp := call_price_pos).
  assert (Hgap : spec_call_price S K T r sigma < spec_call_delta S K T r sigma * S).
  { unfold spec_call_price, spec_call_delta. fold d1 sT.
    assert (H := Rmult_lt_0_compat _ _ discounted_strike_pos (Phi_pos (d1 - sT))).
    lra. }
  apply Rmult_lt_reg_r with (r := spec_call_price S K T r sigma); [exact Hp | ].
  replace (spec_call_delta S K T r sigma * S / spec_call_price S K T r sigma
           * spec_call_price S K T r sigma)
    with (spec_call_delta S K T r sigma * S) by (field; lra).
  lra.
Qed.

Lemma put_elasticity_neg :
  spec_put_delta S K T r sigma * S / spec_put_price S K T r sigma < 0.
Proof.
  assert (Hp := put_price_pos).
  assert (Hn : 0 < Phi (- d1) * S)
    by (apply Rmult_lt_0_compat; [apply Phi_pos | exact HS]).
  unfold spec_put_delta. fold d1.
  replace (- Phi (- d1) * S / spec_put_price S K T r sigma)
    with (- (Phi (- d1) * S / spec_put_price S K T r sigma)) by (field; lra).
  assert (0 < Phi (- d1) * S / spec_put_price S K T r sigma)
    by (apply Rdiv_lt_0_compat; assumption).
  lra.
Qed.

End BlackScholesReal.

(** ** Arithmetic of [npfloat] on finite operands *)

Lemma np_div_fin (x y : R) : y <> 0 -> np_div (Fin x) (Fin y) = Fin (x / y).
Proof.
  intros Hy. unfold np_div. destruct (Req_EM_T y 0) as [E | _]; [contradiction | reflexivity].
Qed.

Lemma np_div_zero_zero : np_div (Fin 0) (Fin 0) = NaN.
Proof.
  unfold np_div, inf_of_sign.
  destruct (Req_EM_T 0 0) as [_ | N]; [ | contradiction].
  destruct (Rlt_dec 0 0) as [H | _]; [lra | reflexivity].
Qed.

Lemma np_log_fin (x : R) : 0 < x -> np_log (Fin x) = Fin (ln x).
Proof.
  intros Hx. unfold np_log. destruct (Rlt_dec 0 x) as [_ | N]; [reflexivity | contradiction].
Qed.

Lemma np_sqrt_fin (x : R) : 0 <= x -> np_sqrt (Fin x) = Fin (sqrt x).
Proof.
  intros Hx. unfold np_sqrt. destruct (Rlt_dec x 0) as [H | _]; [lra | reflexivity].
Qed.

Lemma np_sqrt_negative (x : R) : x < 0 -> np_sqrt (Fin x) = NaN.
Proof.
  intros Hx. unfold np_sqrt. destruct (Rlt_dec x 0) as [_ | N]; [reflexivity | contradiction].
Qed.

Lemma np_gtb_fin (x y : R) : np_gtb (Fin x) (Fin y) = true <-> y < x.
Proof.
  unfold np_gtb. destruct (Rlt_dec y x); split; intros; try assumption;
    try reflexivity; try discriminate; contradiction.
Qed.

Lemma np_geb_fin (x y : R) : np_geb (Fin x) (Fin y) = true <-> y <= x.
Proof.
  unfold np_geb. destruct (Rle_dec y x); split; intros; try assumption;
    try reflexivity; try discriminate; contradiction.
Qed.

(** [NaN] is absorbing. *)
Lemma np_mul_nan_r a : np_mul a NaN = NaN.
Proof. destruct a; reflexivity. Qed.

Lemma np_add_nan_r a : np_add a NaN = NaN.
Proof. destruct a; reflexivity. Qed.

Lemma np_div_nan_r a : np_div a NaN = NaN.
Proof. destruct a; reflexivity. Qed.

(** ** [bs_elasticity] on valid inputs *)

Lemma code_d1 (S K T r sigma : R) :
  (ln (S / K) + (r + 1 / 2 * (sigma * sigma)) * T) / (sigma * sqrt T)
  = spec_d1 S K T r sigma.
Proof.
  unfold spec_d1.
  replace (r + 1 / 2 * (sigma * sigma)) with (r + sigma ^ 2 / 2) by field.
  reflexivity.
Qed.

Lemma bs_elasticity_call_valid (S K T r sigma : R) :
  0 < S -> 0 < K -> 0 < T -> 0 < sigma ->
  bs_elasticity (Fin S) (Fin K) (Fin T) (Fin r) (Fin sigma) "call"
  = Return [Fin (spec_call_delta S K T r sigma * S / spec_call_price S K T r sigma);
            Fin (spec_call_price S K T r sigma)].
Proof.
  intros HS HK HT Hsig.
  assert (HsT := vol_sqrt_time_pos T sigma HT Hsig).
  assert (Hp := call_price_pos S K T r sigma HS HK HT Hsig).
  unfold bs_elasticity. simpl String.eqb. cbv iota.
  rewrite (np_div_fin S K) by lra.
  rewrite np_log_fin by (apply Rdiv_lt_0_compat; assumption).
  rewrite np_sqrt_fin by lra.
  unfold np_pow2, np_sub. simpl.
  destruct (Req_EM_T (sigma * sqrt T) 0) as [E | _]; [lra | ].
  rewrite code_d1. simpl. fold (spec_call_delta S K T r sigma).
  replace (S * spec_call_delta S K T r sigma
           + - (K * exp (- r * T)
                * NormalCdf.Phi (spec_d1 S K T r sigma + - (sigma * sqrt T))))
    with (spec_call_price S K T r sigma)
    by (unfold spec_call_price, spec_call_delta, Rminus; reflexivity || ring).
  destruct (Req_EM_T (spec_call_price S K T r sigma) 0) as [E | _]; [lra | ].
  reflexivity.
Qed.

Lemma bs_elasticity_put_valid (S K T r sigma : R) :
  0 < S -> 0 < K -> 0 < T -> 0 < sigma ->
  bs_elasticity (Fin S) (Fin K) (Fin T) (Fin r) (Fin sigma) "put"
  = Return [Fin (spec_put_delta S K T r sigma * S / spec_put_price S K T r sigma);
            Fin (spec_put_price S K T r sigma)].
Proof.
  intros HS HK HT Hsig.
  assert (HsT := vol_sqrt_time_pos T sigma HT Hsig).
  assert (Hp := put_price_pos S K T r sigma HS HK HT Hsig).
  unfold bs_elasticity. simpl String.eqb. cbv iota.
  rewrite (np_div_fin S K) by lra.
  rewrite np_log_fin by (apply Rdiv_lt_0_compat; assumption).
  rewrite np_sqrt_fin by lra.
  unfold np_pow2, np_sub. simpl.
  destruct (Req_EM_T (sigma * sqrt T) 0) as [E | _]; [lra | ].
  rewrite code_d1. simpl. fold (spec_put_delta S K T r sigma).
  replace (K * exp (- r * T)
           * NormalCdf.Phi (- spec_d1 S K T r sigma + sigma * sqrt T)
           + - (S * NormalCdf.Phi (- spec_d1 S K T r sigma)))
    with (spec_put_price S K T r sigma)
    by (unfold spec_put_price, Rminus; reflexivity || ring).
  destruct (Req_EM_T (spec_put_price S K T r sigma) 0) as [E | _]; [lra | ].
  reflexivity.
Qed.

(** ** [kernel_weights]: shape of the result *)

Lemma exp_self_ratio (a : npfloat) :
  np_div (np_exp a) (np_exp a) = Fin 1 \/ np_div (np_exp a) (np_exp a) = NaN.
Proof.
  destruct a as [x | | | ]; simpl.
  - left. assert (Hx := exp_pos x).
    destruct (Req_EM_T (exp x) 0) as [E | _]; [lra | ].
    f_equal. field. lra.
  - right. reflexivity.
  - right. apply np_div_zero_zero.
  - right. reflexivity.
Qed.

Lemma kernel_weights_range (ms ts : list npfloat) (k t bw_m bw_t w : npfloat) :
  kernel_weights ms ts k t bw_m bw_t = Return w -> w = Fin 1 \/ w = NaN.
Proof.
  unfold kernel_weights.
  destruct (column_stack ms ts) as [grid | e]; simpl; [ | discriminate].
  destruct (broadcast_div (cdist_euclidean grid (k, t)) [bw_m; bw_t])
    as [scaled | e]; simpl; [ | discriminate].
  intros H. injection H as <-. apply exp_self_ratio.
Qed.

(** Only one or two quotes broadcast against the two bandwidths. *)
Lemma broadcast_div_two (xs : list npfloat) (b1 b2 : npfloat) :
  List.length xs <> 1%nat -> List.length xs <> 2%nat ->
  broadcast_div xs [b1; b2] = Raise ValueError.
Proof.
  intros H1 H2. unfold broadcast_div.
  destruct xs as [ | x1 [ | x2 [ | x3 xs]]]; simpl in *; try reflexivity;
    exfalso; auto.
Qed.

Lemma kernel_weights_raises (ms ts : list npfloat) (k t bw_m bw_t : npfloat) :
  List.length ms <> 1%nat -> List.length ms <> 2%nat ->
  kernel_weights ms ts k t bw_m bw_t = Raise ValueError.
Proof.
  intros H1 H2. unfold kernel_weights, column_stack.
  destruct (Nat.eqb (List.length ms) (List.length ts)) eqn:E; [ | reflexivity].
  apply Nat.eqb_eq in E. simpl.
  rewrite broadcast_div_two; [reflexivity | | ];
    unfold cdist_euclidean; rewrite length_map, length_combine, <- E, Nat.min_id;
    assumption.
Qed.

Lemma cdist_finite (m t k tt : R) :
  cdist_euclidean [(Fin m, Fin t)] (Fin k, Fin tt)
  = [Fin (sqrt ((m + - k) * (m + - k) + (t + - tt) * (t + - tt)))].
Proof.
  unfold cdist_euclidean, np_pow2, np_sub. simpl.
  destruct (Rlt_dec ((m + - k) * (m + - k) + (t + - tt) * (t + - tt)) 0)
    as [H | _]; [ | reflexivity].
  assert (H1 := Rle_0_sqr (m + - k)). assert (H2 := Rle_0_sqr (t + - tt)).
  unfold Rsqr in H1, H2. lra.
Qed.

Lemma np_exp_fin_ratio (y : R) : np_div (np_exp (Fin y)) (np_exp (Fin y)) = Fin 1.
Proof.
  simpl. assert (Hy := exp_pos y).
  destruct (Req_EM_T (exp y) 0) as [E | _]; [lra | ].
  f_equal. field. lra.
Qed.

Lemma scaled_sum_finite (d1 d2 : R) :
  np_sum [np_div (Fin d1) bw_m_default; np_div (Fin d2) bw_t_default]
  = Fin (0 + d1 / (1 / 80) + d2 / 10).
Proof.
  unfold bw_m_default, bw_t_default.
  rewrite !np_div_fin by lra. reflexivity.
Qed.

Lemma kernel_weights_single (m t k tt : R) :
  kernel_weights [Fin m] [Fin t] (Fin k) (Fin tt) bw_m_default bw_t_default
  = Return (Fin 1).
Proof.
  unfold kernel_weights, column_stack.
  cbn [List.length Nat.eqb combine bind].
  rewrite cdist_finite.
  unfold broadcast_div. cbn [List.length Nat.eqb map bind].
  rewrite scaled_sum_finite. cbn [np_mul].
  now rewrite np_exp_fin_ratio.
Qed.

Lemma kernel_weights_pair (m1 t1 m2 t2 k tt : R) :
  kernel_weights [Fin m1; Fin m2] [Fin t1; Fin t2] (Fin k) (Fin tt)
    bw_m_default bw_t_default
  = Return (Fin 1).
Proof.
  unfold kernel_weights, column_stack.
  cbn [List.length Nat.eqb combine bind].
  change [(Fin m1, Fin t1); (Fin m2, Fin t2)]
    with ([(Fin m1, Fin t1)] ++ [(Fin m2, Fin t2)])%list.
  unfold cdist_euclidean at 1. rewrite map_app.
  fold (cdist_euclidean [(Fin m1, Fin t1)] (Fin k, Fin tt)).
  fold (cdist_euclidean [(Fin m2, Fin t2)] (Fin k, Fin tt)).
  rewrite !cdist_finite.
  unfold broadcast_div. cbn [app List.length Nat.eqb combine map fst snd bind].
  rewrite scaled_sum_finite. cbn [np_mul].
  now rewrite np_exp_fin_ratio.
Qed.

(** ** [bs_elasticity] never raises *)

Lemma bs_elasticity_pair (S K T r sigma : npfloat) (ty : string) :
  exists e p, bs_elasticity S K T r sigma ty = Return [e; p].
Proof.
  unfold bs_elasticity.
  destruct (String.eqb ty "call"); eexists; eexists; reflexivity.
Qed.

Lemma bs_elasticity_negative_time (S K r sigma : npfloat) (ty : string) (t : R) :
  t < 0 -> bs_elasticity S K (Fin t) r sigma ty = Return [NaN; NaN].
Proof.
  intros Ht. unfold bs_elasticity.
  rewrite (np_sqrt_negative t Ht), np_mul_nan_r, np_div_nan_r.
  unfold np_sub. cbn [norm_cdf np_neg np_add].
  rewrite !np_mul_nan_r. cbn [np_add np_neg np_mul np_div].
  destruct (String.eqb ty "call"); reflexivity.
Qed.

Lemma elasticity_of_returns (r : npfloat) (ty : string) (q : quote) :
  elasticity_of r ty q = Return (elasticity r ty q).
Proof.
  unfold elasticity, elasticity_of.
  destruct (bs_elasticity_pair (underlying q) (strike q)
              (np_div (ttm q) (Fin 365)) r (iv q) ty) as [e [p ->]].
  reflexivity.
Qed.

Lemma leverage_return_returns (r : npfloat) (ty : string) (q : quote) :
  leverage_return r ty q = Return (np_div (daily_return q) (elasticity r ty q)).
Proof. unfold leverage_return. now rewrite elasticity_of_returns. Qed.

Lemma mapM_leverage_return (r : npfloat) (ty : string) (qs : list quote) :
  mapM (leverage_return r ty) qs
  = Return (map (fun q => np_div (daily_return q) (elasticity r ty q)) qs).
Proof.
  induction qs as [ | q qs IH]; [reflexivity | ].
  simpl. rewrite leverage_return_returns, IH. reflexivity.
Qed.

Lemma construct_portfolio_of_members (data : list quote) (k t : npfloat)
  (ty : string) (r : npfloat) (ms : list member) :
  surviving_members data k t ty = Return ms ->
  construct_portfolio data k t ty r
  = Return (pandas_sum (map (weighted_leverage_return r ty) ms)).
Proof.
  intros H. unfold construct_portfolio. rewrite H. cbn [bind].
  rewrite mapM_leverage_return. cbn [bind]. do 2 f_equal.
  clear H. induction ms as [ | m ms IH]; [reflexivity | ].
  simpl. rewrite IH. reflexivity.
Qed.

Lemma construct_portfolio_raises (data : list quote) (k t : npfloat)
  (ty : string) (r : npfloat) (e : exn) :
  surviving_members data k t ty = Raise e ->
  construct_portfolio data k t ty r = Raise e.
Proof. intros H. unfold construct_portfolio. now rewrite H. Qed.

(** ** Weights inside [construct_portfolio] *)

Lemma weighted_subset_inv (data : list quote) (k t : npfloat) (ty : string)
  (ms : list member) :
  weighted_subset data k t ty = Return ms ->
  exists w, (w = Fin 1 \/ w = NaN)
            /\ ms = map (fun q => mkMember q w) (select_type data ty).
Proof.
  unfold weighted_subset.
  destruct (kernel_weights _ _ k t bw_m_default bw_t_default) as [w | e] eqn:E;
    cbn [bind]; [ | discriminate].
  intros H. injection H as <-. exists w. split; [ | reflexivity].
  eapply kernel_weights_range; exact E.
Qed.

Lemma drop_small_ones (qs : list quote) :
  drop_small (map (fun q => mkMember q (Fin 1)) qs)
  = map (fun q => mkMember q (Fin 1)) qs.
Proof.
  induction qs as [ | q qs IH]; [reflexivity | ].
  unfold drop_small in *. cbn [map filter weight].
  assert (H : np_gtb (Fin 1) (Fin (1 / 100)) = true) by (apply np_gtb_fin; lra).
  rewrite H, IH. reflexivity.
Qed.

Lemma drop_small_nans (qs : list quote) :
  drop_small (map (fun q => mkMember q NaN) qs) = [].
Proof. induction qs as [ | q qs IH]; [reflexivity | exact IH]. Qed.

Lemma fold_add_const (A : Type) (xs : list A) (c a : R) :
  fold_left np_add (map (fun _ => Fin c) xs) (Fin a)
  = Fin (a + INR (List.length xs) * c).
Proof.
  revert a. induction xs as [ | x xs IH]; intros a.
  - simpl. f_equal. ring.
  - cbn [map fold_left np_add List.length]. rewrite IH, S_INR. f_equal. ring.
Qed.

Lemma pandas_sum_const (A : Type) (xs : list A) (c : R) :
  pandas_sum (map (fun _ => Fin c) xs) = Fin (0 + INR (List.length xs) * c).
Proof.
  unfold pandas_sum, np_sum.
  replace (filter (fun x => negb (is_nan x)) (map (fun _ : A => Fin c) xs))
    with (map (fun _ : A => Fin c) xs).
  - apply fold_add_const.
  - induction xs as [ | x xs IH]; [reflexivity | ]. simpl. now rewrite <- IH.
Qed.

Lemma renormalize_ones (qs : list quote) :
  qs <> [] ->
  renormalize (map (fun q => mkMember q (Fin 1)) qs)
  = map (fun q => mkMember q (Fin (1 / INR (List.length qs)))) qs.
Proof.
  intros Hne. unfold renormalize.
  rewrite map_map. cbn [weight row].
  rewrite (map_map (fun q => mkMember q (Fin 1)) weight). cbn [weight].
  rewrite (pandas_sum_const quote qs 1).
  assert (Hn : 0 < INR (List.length qs)).
  { apply lt_0_INR. destruct qs; [contradiction | simpl; lia]. }
  rewrite np_div_fin by lra.
  replace (1 / (0 + INR (List.length qs) * 1)) with (1 / INR (List.length qs))
    by (field; lra).
  reflexivity.
Qed.

(** * Properties of the pricing operation *)

(** C1, counterexample.  [bs_elasticity] returns the 2-tuple
    [(elasticity, price)], so at the textbook input S = K = 100,
    T = 0.25, r = 0.01, sigma = 0.2 its result is not a triple
    [(elasticity, price, delta)]. *)
Lemma bs_elasticity_returns_no_triple :
  ~ exists e p d,
      bs_elasticity (Fin 100) (Fin 100) (Fin (1 / 4)) (Fin (1 / 100))
        (Fin (1 / 5)) "call"
      = Return [e; p; d].
Proof.
  intros (e & p & d & H).
  destruct (bs_elasticity_pair (Fin 100) (Fin 100) (Fin (1 / 4)) (Fin (1 / 100))
              (Fin (1 / 5)) "call") as (e' & p' & E).
  rewrite E in H. discriminate H.
Qed.

(** C1, amended.  For S > 0, K > 0, T > 0 and sigma > 0, [bs_elasticity]
    computes d1 = (ln(S/K) + (r + sigma^2/2) T) / (sigma sqrt T) and
    returns the pair (elasticity, price) of the Black-Scholes closed
    form: for a call price = S Phi(d1) - K e^(-rT) Phi(d1 - sigma sqrt T)
    and delta = Phi(d1); for a put
    price = K e^(-rT) Phi(-d1 + sigma sqrt T) - S Phi(-d1) and
    delta = -Phi(-d1); elasticity = delta S / price.  The delta is not
    returned. *)
Theorem bs_elasticity_closed_form (S K T r sigma : R) :
  0 < S -> 0 < K -> 0 < T -> 0 < sigma ->
  let d1 := (ln (S / K) + (r + sigma ^ 2 / 2) * T) / (sigma * sqrt T) in
  let call_price :=
    S * NormalCdf.Phi d1
    - K * exp (- r * T) * NormalCdf.Phi (d1 - sigma * sqrt T) in
  let call_delta := NormalCdf.Phi d1 in
  let put_price :=
    K * exp (- r * T) * NormalCdf.Phi (- d1 + sigma * sqrt T)
    - S * NormalCdf.Phi (- d1) in
  let put_delta := - NormalCdf.Phi (- d1) in
  bs_elasticity (Fin S) (Fin K) (Fin T) (Fin r) (Fin sigma) "call"
  = Return [Fin (call_delta * S / call_price); Fin call_price]
  /\ bs_elasticity (Fin S) (Fin K) (Fin T) (Fin r) (Fin sigma) "put"
     = Return [Fin (put_delta * S / put_price); Fin put_price].
Proof.
  intros HS HK HT Hsig. split.
  - rewrite bs_elasticity_call_valid by assumption. reflexivity.
  - rewrite bs_elasticity_put_valid by assumption. reflexivity.
Qed.

(** The closed form at S = K = 100, T = 0.25, r = 0.01, sigma = 0.2. *)
Lemma bs_elasticity_closed_form_witness :
  0 < 100 /\ 0 < 1 / 4 /\ 0 < 1 / 5
  /\ exists e p,
       bs_elasticity (Fin 100) (Fin 100) (Fin (1 / 4)) (Fin (1 / 100))
         (Fin (1 / 5)) "call"
       = Return [Fin e; Fin p].
Proof.
  split; [lra | split; [lra | split; [lra | ]]].
  destruct (bs_elasticity_closed_form 100 100 (1 / 4) (1 / 100) (1 / 5))
    as [Hcall _]; try lra.
  eexists. eexists. exact Hcall.
Defined.

(** C6, counterexample.  On the expiry day of an at-the-money option
    (T = 0, S = K = 100, sigma = 0.2) [bs_elasticity] raises nothing: d1
    is 0/0 and the call returns [(NaN, NaN)]. *)
Lemma bs_elasticity_zero_time_is_silent :
  bs_elasticity (Fin 100) (Fin 100) (Fin 0) (Fin (1 / 100)) (Fin (1 / 5)) "call"
  = Return [NaN; NaN]
  /\ bs_elasticity (Fin 100) (Fin 100) (Fin 0) (Fin (1 / 100)) (Fin (1 / 5)) "call"
     <> Raise ValueError.
Proof.
  assert (E : bs_elasticity (Fin 100) (Fin 100) (Fin 0) (Fin (1 / 100))
                (Fin (1 / 5)) "call" = Return [NaN; NaN]).
  { unfold bs_elasticity.
    rewrite (np_div_fin 100 100) by lra.
    rewrite np_log_fin by lra.
    rewrite np_sqrt_fin by lra.
    rewrite sqrt_0. unfold np_pow2. cbn [np_mul np_add].
    replace (100 / 100) with 1 by field. rewrite ln_1.
    replace (0 + (1 / 100 + 1 / 2 * (1 / 5 * (1 / 5))) * 0) with 0 by ring.
    replace (1 / 5 * 0) with 0 by ring.
    rewrite np_div_zero_zero. reflexivity. }
  split; [exact E | rewrite E; discriminate].
Qed.

(** C6, amended.  [bs_elasticity] validates nothing: for every input,
    including T_years <= 0, sigma <= 0 or a theoretical price <= 0, it
    raises no error and returns its (elasticity, price) pair; for
    T_years < 0 both components are NaN.  The caller keeps such a row
    among the members of the bucket: every surviving member's term
    enters the final sum. *)
Theorem bs_elasticity_signals_nothing (S K T r sigma : npfloat) (ty : string) :
  (exists e p, bs_elasticity S K T r sigma ty = Return [e; p])
  /\ (forall t, T = Fin t -> t < 0 ->
      bs_elasticity S K T r sigma ty = Return [NaN; NaN])
  /\ (forall data k_s tt ms,
      surviving_members data k_s tt ty = Return ms ->
      construct_portfolio data k_s tt ty r
      = Return (pandas_sum (map (weighted_leverage_return r ty) ms))).
Proof.
  split; [apply bs_elasticity_pair | split].
  - intros t -> Ht. now apply bs_elasticity_negative_time.
  - intros data k_s tt ms H. now apply construct_portfolio_of_members.
Qed.

(** A put priced one year after its expiry. *)
Lemma bs_elasticity_signals_nothing_witness :
  -1 < 0
  /\ bs_elasticity (Fin 100) (Fin 100) (Fin (-1)) (Fin (1 / 100)) (Fin (1 / 5)) "put"
     = Return [NaN; NaN].
Proof.
  split; [lra | ].
  destruct (bs_elasticity_signals_nothing (Fin 100) (Fin 100) (Fin (-1))
              (Fin (1 / 100)) (Fin (1 / 5)) "put") as [_ [Hneg _]].
  apply (Hneg (-1)); [reflexivity | lra].
Defined.

(** C7, counterexample.  For the in-the-money put S = 1, K = 2, T = 1,
    r = 0, sigma = 1 (a valid input) the elasticity is above -1. *)
Lemma put_elasticity_above_minus_one :
  exists e p,
    bs_elasticity (Fin 1) (Fin 2) (Fin 1) (Fin 0) (Fin 1) "put"
    = Return [Fin e; Fin p]
    /\ -1 < e.
Proof.
  eexists. eexists. split.
  - apply bs_elasticity_put_valid; lra.
  - assert (Hp := put_price_pos 1 2 1 0 1 ltac:(lra) ltac:(lra) ltac:(lra) ltac:(lra)).
    assert (HsT := vol_sqrt_time_pos 1 1 ltac:(lra) ltac:(lra)).
    set (d := spec_d1 1 2 1 0 1) in *.
    assert (Hinc := NormalCdf.Phi_increasing (- d) (- d + 1 * sqrt 1) ltac:(lra)).
    assert (Hpos := NormalCdf.Phi_pos (- d)).
    assert (Hprice : spec_put_price 1 2 1 0 1
                     = 2 * NormalCdf.Phi (- d + 1 * sqrt 1) - NormalCdf.Phi (- d)).
    { unfold spec_put_price. fold d.
      replace (- 0 * 1) with 0 by ring. rewrite exp_0. ring. }
    unfold spec_put_delta. fold d.
    set (P := spec_put_price 1 2 1 0 1) in *.
    apply Rmult_lt_reg_r with (r := P); [exact Hp | ].
    replace (- NormalCdf.Phi (- d) * 1 / P * P) with (- NormalCdf.Phi (- d))
      by (field; lra).
    lra.
Qed.

(** C7, amended.  For S > 0, K > 0, T > 0, sigma > 0 and r >= 0 the
    elasticity returned by [bs_elasticity] is strictly greater than 1
    for a call and strictly negative for a put. *)
Theorem elasticity_direction (S K T r sigma : R) :
  0 < S -> 0 < K -> 0 < T -> 0 < sigma -> 0 <= r ->
  (exists e p,
      bs_elasticity (Fin S) (Fin K) (Fin T) (Fin r) (Fin sigma) "call"
      = Return [Fin e; Fin p] /\ 1 < e)
  /\ (exists e p,
      bs_elasticity (Fin S) (Fin K) (Fin T) (Fin r) (Fin sigma) "put"
      = Return [Fin e; Fin p] /\ e < 0).
Proof.
  intros HS HK HT Hsig _. split; eexists; eexists; split.
  - apply bs_elasticity_call_valid; assumption.
  - apply call_elasticity_gt_1; assumption.
  - apply bs_elasticity_put_valid; assumption.
  - apply put_elasticity_neg; assumption.
Qed.

(** The call bound at S = K = 100, T = 0.25, r = 0.01, sigma = 0.2. *)
Lemma elasticity_direction_witness :
  0 < 100 /\ 0 < 1 / 4 /\ 0 < 1 / 5 /\ 0 <= 1 / 100
  /\ exists e p,
       bs_elasticity (Fin 100) (Fin 100) (Fin (1 / 4)) (Fin (1 / 100))
         (Fin (1 / 5)) "call"
       = Return [Fin e; Fin p] /\ 1 < e.
Proof.
  split; [lra | split; [lra | split; [lra | split; [lra | ]]]].
  destruct (elasticity_direction 100 100 (1 / 4) (1 / 100) (1 / 5))
    as [Hcall _]; try lra.
  exact Hcall.
Defined.

(** * Properties of the kernel weights and of the bucket construction *)

(** C2.  On three quotes (moneyness 0.95, 1.00, 1.05 at 30 days, target
    (1.00, 30)) [kernel_weights] raises [ValueError]: the three
    distances do not broadcast against the two bandwidths.  On a single
    quote away from the target (moneyness 0.9, 40 days) it returns the
    scalar 1.0: no per-quote vector, and no decay with the distance. *)
Theorem kernel_weights_three_quotes :
  kernel_weights [Fin (19 / 20); Fin 1; Fin (21 / 20)] [Fin 30; Fin 30; Fin 30]
    (Fin 1) (Fin 30) bw_m_default bw_t_default
  = Raise ValueError
  /\ kernel_weights [Fin (9 / 10)] [Fin 40] (Fin 1) (Fin 30)
       bw_m_default bw_t_default
     = Return (Fin 1).
Proof.
  split.
  - apply kernel_weights_raises; simpl; lia.
  - apply kernel_weights_single.
Qed.

Lemma weighted_subset_atm_call (ret : npfloat) :
  weighted_subset [atm_call ret] (Fin 1) (Fin 30) "call"
  = Return [mkMember (atm_call ret) (Fin 1)].
Proof.
  unfold weighted_subset. cbn [select_type atm_call filter option_type String.eqb
    Ascii.eqb Bool.eqb map moneyness ttm].
  rewrite kernel_weights_single. reflexivity.
Qed.

Lemma pandas_sum_no_nan (xs : list npfloat) :
  Forall (fun x => x <> NaN) xs -> pandas_sum xs = np_sum xs.
Proof.
  intros H. unfold pandas_sum. f_equal.
  induction H as [ | x xs Hx _ IH]; [reflexivity | ].
  simpl. rewrite IH. destruct x; try reflexivity. contradiction.
Qed.

Lemma surviving_members_atm_call (ret : npfloat) :
  surviving_members [atm_call ret] (Fin 1) (Fin 30) "call"
  = Return [mkMember (atm_call ret) (Fin (1 / 1))].
Proof.
  unfold surviving_members. rewrite weighted_subset_atm_call. cbn [bind].
  change [mkMember (atm_call ret) (Fin 1)]
    with (map (fun q => mkMember q (Fin 1)) [atm_call ret]).
  rewrite (drop_small_ones [atm_call ret]).
  rewrite (renormalize_ones [atm_call ret]) by discriminate.
  reflexivity.
Qed.

(** C3.  On two calls 30 days from expiry, at moneyness 1.00 and 1.10,
    and the target (1.00, 30), [construct_portfolio] keeps both rows,
    each with weight 1/2, although the normalized Gaussian kernel weight
    of the second, eight bandwidths away from the target, is below 1%:
    the member with weight below 1% is not excluded. *)
Theorem far_quote_is_kept :
  surviving_members two_calls (Fin 1) (Fin 30) "call"
  = Return (map (fun q => mkMember q (Fin (1 / 2))) two_calls)
  /\ nth 1 (intended_weights [(1, 30); (11 / 10, 30)] 1 30) 0 < 1 / 100.
Proof.
  split.
  - unfold surviving_members, weighted_subset.
    cbn [two_calls select_type filter option_type String.eqb Ascii.eqb Bool.eqb
         map moneyness ttm].
    rewrite kernel_weights_pair. cbn [bind].
    change [mkMember ?a (Fin 1); mkMember ?b (Fin 1)]
      with (map (fun q => mkMember q (Fin 1)) [a; b]).
    rewrite drop_small_ones, renormalize_ones by discriminate.
    cbn [List.length INR].
    replace (1 / (1 + 1)) with (1 / 2) by field. reflexivity.
  - unfold intended_weights, intended_kernel.
    cbn [map fst snd nth sum_list fold_right].
    replace (- (1 / 2) * (((1 - 1) / (1 / 80)) ^ 2 + ((30 - 30) / 10) ^ 2))
      with 0 by field.
    replace (- (1 / 2) * (((11 / 10 - 1) / (1 / 80)) ^ 2 + ((30 - 30) / 10) ^ 2))
      with (Ropp 32) by field.
    rewrite exp_0, exp_Ropp.
    assert (He := NormalCdf.exp_quadratic 32 ltac:(lra)).
    set (E := exp 32) in *.
    assert (HE : 0 < E) by apply exp_pos.
    assert (Hi : 0 < / E) by now apply Rinv_0_lt_compat.
    assert (Hd : 0 < 1 + (/ E + 0)) by lra.
    apply Rmult_lt_reg_r with (r := 1 + (/ E + 0)); [exact Hd | ].
    replace (/ E / (1 + (/ E + 0)) * (1 + (/ E + 0))) with (/ E) by (field; lra).
    assert (H256 : / E < / 256) by (apply Rinv_lt_contravar; nra).
    lra.
Qed.

(** C4, counterexample.  A bucket whose only member has a missing
    ([NaN]) daily return: the member survives, the sum of
    weight x leverage_return over the survivors is [NaN], and
    [construct_portfolio] returns 0.0. *)
Lemma nan_return_is_skipped :
  exists ms,
    surviving_members [atm_call NaN] (Fin 1) (Fin 30) "call" = Return ms
    /\ ms <> []
    /\ np_sum (map (weighted_leverage_return r_default "call") ms) = NaN
    /\ construct_portfolio [atm_call NaN] (Fin 1) (Fin 30) "call" r_default
       = Return (Fin 0)
    /\ construct_portfolio [atm_call NaN] (Fin 1) (Fin 30) "call" r_default
       <> Return (np_sum (map (weighted_leverage_return r_default "call") ms)).
Proof.
  exists [mkMember (atm_call NaN) (Fin (1 / 1))].
  assert (Hs := surviving_members_atm_call NaN).
  assert (Hc : construct_portfolio [atm_call NaN] (Fin 1) (Fin 30) "call" r_default
               = Return (Fin 0))
    by (rewrite (construct_portfolio_of_members _ _ _ _ _ _ Hs); reflexivity).
  split; [exact Hs | split; [discriminate | split; [reflexivity | split]]].
  - exact Hc.
  - rewrite Hc. discriminate.
Qed.

(** C4, amended.  For every bucket with a non-empty surviving member
    set, the bucket's daily return is the sum, over the surviving members
    whose term is not [NaN], of weight_i x leverage_return_i, where
    leverage_return_i = daily_return_i / elasticity_i and elasticity_i
    is the first component of [bs_elasticity] on the member's row; when
    no term is [NaN] it is the sum over all surviving members. *)
Theorem bucket_return_is_weighted_sum (data : list quote) (k_s tt : npfloat)
  (ty : string) (r : npfloat) (ms : list member) :
  surviving_members data k_s tt ty = Return ms ->
  ms <> [] ->
  Forall (fun m =>
    exists e p,
      bs_elasticity (underlying (row m)) (strike (row m))
        (np_div (ttm (row m)) (Fin 365)) r (iv (row m)) ty
      = Return [e; p]
      /\ weighted_leverage_return r ty m
         = np_mul (np_div (daily_return (row m)) e) (weight m)) ms
  /\ construct_portfolio data k_s tt ty r
     = Return (pandas_sum (map (weighted_leverage_return r ty) ms))
  /\ (Forall (fun m => weighted_leverage_return r ty m <> NaN) ms ->
      construct_portfolio data k_s tt ty r
      = Return (np_sum (map (weighted_leverage_return r ty) ms))).
Proof.
  intros Hs _.
  assert (Hc := construct_portfolio_of_members _ _ _ _ r _ Hs).
  split; [ | split; [exact Hc | ]].
  - apply Forall_forall. intros m _.
    destruct (bs_elasticity_pair (underlying (row m)) (strike (row m))
                (np_div (ttm (row m)) (Fin 365)) r (iv (row m)) ty)
      as (e & p & E).
    exists e, p. split; [exact E | ].
    unfold weighted_leverage_return, elasticity, elasticity_of.
    rewrite E. reflexivity.
  - intros Hnn. rewrite Hc. f_equal. apply pandas_sum_no_nan.
    apply Forall_forall. intros x Hx. apply in_map_iff in Hx.
    destruct Hx as [m [<- Hm]]. rewrite Forall_forall in Hnn. now apply Hnn.
Qed.

(** The bucket of one call whose daily return is 1%. *)
Lemma bucket_return_is_weighted_sum_witness :
  surviving_members [atm_call (Fin (1 / 100))] (Fin 1) (Fin 30) "call"
  = Return [mkMember (atm_call (Fin (1 / 100))) (Fin (1 / 1))]
  /\ construct_portfolio [atm_call (Fin (1 / 100))] (Fin 1) (Fin 30) "call" r_default
     = Return
         (pandas_sum
            (map (weighted_leverage_return r_default "call")
               [mkMember (atm_call (Fin (1 / 100))) (Fin (1 / 1))])).
Proof.
  split; [apply surviving_members_atm_call | ].
  apply (bucket_return_is_weighted_sum [atm_call (Fin (1 / 100))] (Fin 1) (Fin 30)
           "call" r_default [mkMember (atm_call (Fin (1 / 100))) (Fin (1 / 1))]);
    [apply surviving_members_atm_call | discriminate].
Defined.

(** ** The loop of [build_portfolios] *)

(** Case analysis on the first call bound in [H : (x <- m ;; k) = Return _]:
    [m] returned, since an exception would have propagated. *)
Ltac returned H :=
  match type of H with
  | context [bind ?m _] =>
      let E := fresh "E" in
      destruct m eqn:E; cbn [bind] in H; [ | discriminate H]
  end.

Lemma for_each_In (A B : Type) (body : A -> outcome (list B)) (xs : list A)
  (rs : list B) (x : A) :
  for_each xs body = Return rs -> In x xs ->
  exists r, body x = Return r /\ incl r rs.
Proof.
  revert rs. induction xs as [ | y ys IH]; intros rs H Hin; [contradiction | ].
  simpl in H. returned H. returned H.
  injection H as <-. destruct Hin as [<- | Hin].
  - eexists. split; [exact E | apply incl_appl, incl_refl].
  - destruct (IH _ eq_refl Hin) as [r [Hr Hincl]].
    exists r. split; [exact Hr | now apply incl_appr].
Qed.

Lemma for_each_ext (A B : Type) (f g : A -> outcome (list B)) (xs : list A) :
  (forall x, f x = g x) -> for_each xs f = for_each xs g.
Proof.
  intros H. induction xs as [ | x xs IH]; [reflexivity | ].
  simpl. now rewrite H, IH.
Qed.

Lemma for_each_keys (A B C : Type) (body : A -> outcome (list B)) (key : B -> C)
  (keys : A -> list C) (xs : list A) (rs : list B) :
  (forall x r, body x = Return r -> map key r = keys x) ->
  for_each xs body = Return rs -> map key rs = flat_map keys xs.
Proof.
  intros Hb. revert rs. induction xs as [ | x xs IH]; intros rs H; simpl in H.
  - injection H as <-. reflexivity.
  - returned H. returned H.
    injection H as <-. rewrite map_app. simpl.
    now rewrite (Hb _ _ E), (IH _ eq_refl).
Qed.

Lemma for_each_Forall (A B : Type) (body : A -> outcome (list B)) (P : B -> Prop)
  (xs : list A) (rs : list B) :
  (forall x r, body x = Return r -> Forall P r) ->
  for_each xs body = Return rs -> Forall P rs.
Proof.
  intros Hb. revert rs. induction xs as [ | x xs IH]; intros rs H; simpl in H.
  - injection H as <-. constructor.
  - returned H. returned H.
    injection H as <-. apply Forall_app. split; [now apply (Hb x) | now apply IH].
Qed.

(** When no call of [construct_portfolio] raises, the panel holds one
    record per bucket, in loop order, with the bucket's return. *)
Lemma build_portfolios_records (data : list quote) (m_grid ttm_grid : list npfloat)
  (option_types : list string) (rs : list portfolio_record) :
  build_portfolios data m_grid ttm_grid option_types = Return rs ->
  map (fun p => (p_type p, p_moneyness p, p_ttm p)) rs
  = bucket_ids option_types m_grid ttm_grid
  /\ Forall (fun p =>
       construct_portfolio data (p_moneyness p) (p_ttm p) (p_type p) r_default
       = Return (p_return p)) rs.
Proof.
  intros H. unfold build_portfolios in H. split.
  - unfold bucket_ids.
    refine (for_each_keys _ _ _ _ _ _ _ _ _ H). intros ty r1 H1.
    refine (for_each_keys _ _ _ _ _ _ _ _ _ H1). intros k r2 H2.
    clear - H2. revert r2 H2.
    induction ttm_grid as [ | t ts IH]; intros r2 H2; simpl in H2.
    + injection H2 as <-. reflexivity.
    + returned H2. returned H2. returned E. injection E as <-.
      injection H2 as <-. simpl. f_equal. now apply IH.
  - refine (for_each_Forall _ _ _ _ _ _ _ H). intros ty r1 H1.
    refine (for_each_Forall _ _ _ _ _ _ _ H1). intros k r2 H2.
    refine (for_each_Forall _ _ _ _ _ _ _ H2). intros t r3 H3.
    returned H3.
    injection H3 as <-. constructor; [exact E | constructor].
Qed.

(** C5, counterexample.  The only call of the table has no moneyness;
    its kernel weight is [NaN], it does not pass the 1% threshold, no
    member survives, and [build_portfolios] still emits the bucket's
    record, with return 0.0. *)
Lemma empty_bucket_gets_a_zero_record :
  surviving_members [call_without_moneyness] (Fin 1) (Fin 30) "call" = Return []
  /\ build_portfolios [call_without_moneyness] [Fin 1] [Fin 30] ["call"%string]
     = Return [mkRecord "call" (Fin 1) (Fin 30) (Fin 0)].
Proof.
  assert (Hs : surviving_members [call_without_moneyness] (Fin 1) (Fin 30) "call"
               = Return []) by reflexivity.
  split; [exact Hs | ].
  unfold build_portfolios. cbn [for_each].
  rewrite (construct_portfolio_of_members _ _ _ _ _ _ Hs). reflexivity.
Qed.

(** C5, amended.  For a bucket in which no member survives the
    minimum-weight threshold, [construct_portfolio] returns 0.0 (the sum
    of an empty Series), and the panel returned by [build_portfolios]
    holds that bucket's record with return 0.0. *)
Theorem empty_bucket_returns_zero (data : list quote) (m_grid ttm_grid : list npfloat)
  (option_types : list string) (rs : list portfolio_record)
  (ty : string) (k_s tt : npfloat) :
  build_portfolios data m_grid ttm_grid option_types = Return rs ->
  In ty option_types -> In k_s m_grid -> In tt ttm_grid ->
  surviving_members data k_s tt ty = Return [] ->
  construct_portfolio data k_s tt ty r_default = Return (Fin 0)
  /\ In (mkRecord ty k_s tt (Fin 0)) rs.
Proof.
  intros H Hty Hk Ht Hs.
  assert (Hc : construct_portfolio data k_s tt ty r_default = Return (Fin 0))
    by (rewrite (construct_portfolio_of_members _ _ _ _ _ _ Hs); reflexivity).
  split; [exact Hc | ].
  unfold build_portfolios in H.
  destruct (for_each_In _ _ _ _ _ _ H Hty) as (r1 & H1 & I1).
  destruct (for_each_In _ _ _ _ _ _ H1 Hk) as (r2 & H2 & I2).
  destruct (for_each_In _ _ _ _ _ _ H2 Ht) as (r3 & H3 & I3).
  rewrite Hc in H3. cbn [bind] in H3. injection H3 as <-.
  apply I1, I2, I3. now left.
Qed.

(** The bucket whose only candidate has no moneyness. *)
Lemma empty_bucket_returns_zero_witness :
  build_portfolios [call_without_moneyness] [Fin 1] [Fin 30] ["call"%string]
  = Return [mkRecord "call" (Fin 1) (Fin 30) (Fin 0)]
  /\ surviving_members [call_without_moneyness] (Fin 1) (Fin 30) "call" = Return []
  /\ construct_portfolio [call_without_moneyness] (Fin 1) (Fin 30) "call" r_default
     = Return (Fin 0).
Proof.
  assert (Hs : surviving_members [call_without_moneyness] (Fin 1) (Fin 30) "call"
               = Return []) by reflexivity.
  assert (Hb : build_portfolios [call_without_moneyness] [Fin 1] [Fin 30]
                 ["call"%string]
               = Return [mkRecord "call" (Fin 1) (Fin 30) (Fin 0)]).
  { unfold build_portfolios. cbn [for_each].
    rewrite (construct_portfolio_of_members _ _ _ _ _ _ Hs). reflexivity. }
  split; [exact Hb | split; [exact Hs | ]].
  apply (empty_bucket_returns_zero _ _ _ _ _ "call"%string (Fin 1) (Fin 30) Hb);
    simpl; auto.
Defined.

Lemma surviving_members_raises (data : list quote) (k_s tt : npfloat) (ty : string) :
  List.length (select_type data ty) <> 1%nat ->
  List.length (select_type data ty) <> 2%nat ->
  surviving_members data k_s tt ty = Raise ValueError.
Proof.
  intros H1 H2. unfold surviving_members, weighted_subset.
  rewrite kernel_weights_raises; [reflexivity | | ]; now rewrite length_map.
Qed.

(** C8.  On a table of three calls, with the grids [1.0] and [30] and the
    option types ['call'], [build_portfolios] raises [ValueError] and
    produces no record. *)
Theorem build_portfolios_three_calls :
  build_portfolios three_calls [Fin 1] [Fin 30] ["call"%string] = Raise ValueError.
Proof.
  unfold build_portfolios. cbn [for_each].
  rewrite (construct_portfolio_raises three_calls (Fin 1) (Fin 30) "call"
             r_default ValueError); [reflexivity | ].
  apply surviving_members_raises; simpl; lia.
Qed.

(** ** Independence from the implied-rate column *)

Lemma forget_rate_same (d1 d2 : list quote) :
  Forall2 same_but_rate d1 d2 -> map forget_rate d1 = map forget_rate d2.
Proof.
  induction 1 as [ | q1 q2 l1 l2 Hq _ IH]; [reflexivity | ].
  simpl. rewrite IH. f_equal.
  destruct Hq as (H1 & H2 & H3 & H4 & H5 & H6 & H7).
  unfold forget_rate. now rewrite H1, H2, H3, H4, H5, H6, H7.
Qed.

Lemma select_type_forget (data : list quote) (ty : string) :
  select_type (map forget_rate data) ty = map forget_rate (select_type data ty).
Proof.
  unfold select_type. induction data as [ | q qs IH]; [reflexivity | ].
  cbn [map filter]. rewrite IH.
  change (option_type (forget_rate q)) with (option_type q).
  destruct (String.eqb (option_type q) ty); reflexivity.
Qed.

Lemma surviving_members_forget (data : list quote) (k_s tt : npfloat) (ty : string) :
  surviving_members (map forget_rate data) k_s tt ty
  = (ms <- surviving_members data k_s tt ty ;; Return (map forget_member_rate ms)).
Proof.
  unfold surviving_members, weighted_subset.
  rewrite select_type_forget, !map_map.
  change (fun x => moneyness (forget_rate x)) with moneyness.
  change (fun x => ttm (forget_rate x)) with ttm.
  destruct (kernel_weights _ _ k_s tt bw_m_default bw_t_default) as [w | e];
    cbn [bind]; [ | reflexivity].
  f_equal. unfold renormalize, drop_small.
  set (qs := select_type data ty). clearbody qs.
  assert (Hf : filter (fun m => np_gtb (weight m) (Fin (1 / 100)))
                 (map (fun x => mkMember (forget_rate x) w) qs)
               = map forget_member_rate
                   (filter (fun m => np_gtb (weight m) (Fin (1 / 100)))
                      (map (fun q => mkMember q w) qs))).
  { induction qs as [ | q qs IH]; [reflexivity | ].
    cbn [map filter weight]. rewrite IH.
    destruct (np_gtb w (Fin (1 / 100))); reflexivity. }
  rewrite (map_map forget_rate (fun q => mkMember q w) qs).
  rewrite Hf, !map_map. cbn [weight row forget_member_rate].
  reflexivity.
Qed.

Lemma weighted_leverage_return_forget (r : npfloat) (ty : string) (m : member) :
  weighted_leverage_return r ty (forget_member_rate m)
  = weighted_leverage_return r ty m.
Proof. reflexivity. Qed.

Lemma construct_portfolio_forget (data : list quote) (k_s tt : npfloat)
  (ty : string) (r : npfloat) :
  construct_portfolio (map forget_rate data) k_s tt ty r
  = construct_portfolio data k_s tt ty r.
Proof.
  destruct (surviving_members data k_s tt ty) as [ms | e] eqn:Hs.
  - rewrite (construct_portfolio_of_members _ _ _ _ _ _ Hs).
    assert (Hf := surviving_members_forget data k_s tt ty).
    rewrite Hs in Hf. cbn [bind] in Hf.
    rewrite (construct_portfolio_of_members _ _ _ _ _ _ Hf), map_map.
    reflexivity.
  - rewrite (construct_portfolio_raises _ _ _ _ _ _ Hs).
    apply construct_portfolio_raises.
    rewrite surviving_members_forget, Hs. reflexivity.
Qed.

(** C10.  Two quote tables that differ only in the per-quote implied
    rate give the same [construct_portfolio] result for every bucket and
    every scalar rate [r], and the same [build_portfolios] panel, which
    prices every quote with the default r = 0.01. *)
Theorem implied_rate_is_ignored (d1 d2 : list quote) :
  Forall2 same_but_rate d1 d2 ->
  (forall k_s tt ty r,
      construct_portfolio d1 k_s tt ty r = construct_portfolio d2 k_s tt ty r)
  /\ (forall m_grid ttm_grid option_types,
      build_portfolios d1 m_grid ttm_grid option_types
      = build_portfolios d2 m_grid ttm_grid option_types).
Proof.
  intros H. apply forget_rate_same in H.
  assert (Hc : forall k_s tt ty r,
             construct_portfolio d1 k_s tt ty r = construct_portfolio d2 k_s tt ty r).
  { intros k_s tt ty r.
    rewrite <- (construct_portfolio_forget d1), <- (construct_portfolio_forget d2).
    now rewrite H. }
  split; [exact Hc | ].
  intros m_grid ttm_grid option_types. unfold build_portfolios.
  apply for_each_ext. intros ty.
  apply for_each_ext. intros k_s.
  apply for_each_ext. intros tt.
  now rewrite Hc.
Qed.

(** The same call with implied rate 2% and 5%. *)
Lemma implied_rate_is_ignored_witness :
  Forall2 same_but_rate
    [mkQuote "call" (Fin 1) (Fin 30) (Fin 100) (Fin 100) (Fin (1 / 5))
       (Fin (1 / 100)) (Fin (1 / 50))]
    [mkQuote "call" (Fin 1) (Fin 30) (Fin 100) (Fin 100) (Fin (1 / 5))
       (Fin (1 / 100)) (Fin (1 / 20))]
  /\ construct_portfolio
       [mkQuote "call" (Fin 1) (Fin 30) (Fin 100) (Fin 100) (Fin (1 / 5))
          (Fin (1 / 100)) (Fin (1 / 50))]
       (Fin 1) (Fin 30) "call" r_default
     = construct_portfolio
         [mkQuote "call" (Fin 1) (Fin 30) (Fin 100) (Fin 100) (Fin (1 / 5))
            (Fin (1 / 100)) (Fin (1 / 20))]
         (Fin 1) (Fin 30) "call" r_default.
Proof.
  assert (H : Forall2 same_but_rate
    [mkQuote "call" (Fin 1) (Fin 30) (Fin 100) (Fin 100) (Fin (1 / 5))
       (Fin (1 / 100)) (Fin (1 / 50))]
    [mkQuote "call" (Fin 1) (Fin 30) (Fin 100) (Fin 100) (Fin (1 / 5))
       (Fin (1 / 100)) (Fin (1 / 20))]).
  { constructor; [ | constructor]. repeat split. }
  split; [exact H | ].
  apply (implied_rate_is_ignored _ _ H).
Defined.

(** * Further properties of the notebook's functions *)

(** ** [kernel_weights] *)

Lemma broadcast_div_one_or_two (xs : list npfloat) (b1 b2 : npfloat) :
  List.length xs = 1%nat \/ List.length xs = 2%nat ->
  exists ys, broadcast_div xs [b1; b2] = Return ys.
Proof.
  intros [H | H];
    destruct xs as [ | x1 [ | x2 [ | x3 xs]]]; simpl in H; try discriminate H;
    eexists; reflexivity.
Qed.

Lemma kernel_weights_returns (ms ts : list npfloat) (k t bw_m bw_t : npfloat) :
  List.length ms = List.length ts ->
  List.length ms = 1%nat \/ List.length ms = 2%nat ->
  exists w, kernel_weights ms ts k t bw_m bw_t = Return w.
Proof.
  intros Hlen Hn. unfold kernel_weights, column_stack.
  rewrite (proj2 (Nat.eqb_eq _ _) Hlen). cbn [bind].
  destruct (broadcast_div_one_or_two (cdist_euclidean (combine ms ts) (k, t))
              bw_m bw_t) as [ys Hys].
  { unfold cdist_euclidean.
    rewrite length_map, length_combine, <- Hlen, Nat.min_id. exact Hn. }
  rewrite Hys. cbn [bind]. eexists. reflexivity.
Qed.

(** X1.  [kernel_weights] returns exactly when the two columns have the
    same length and hold one or two quotes; on every other input, the
    empty one included, it raises [ValueError]. *)
Theorem kernel_weights_returns_iff (ms ts : list npfloat) (k t bw_m bw_t : npfloat) :
  ((exists w, kernel_weights ms ts k t bw_m bw_t = Return w)
   <-> List.length ms = List.length ts
       /\ (List.length ms = 1%nat \/ List.length ms = 2%nat))
  /\ ((forall w, kernel_weights ms ts k t bw_m bw_t <> Return w)
      <-> kernel_weights ms ts k t bw_m bw_t = Raise ValueError).
Proof.
  assert (Hraise : ~ (List.length ms = List.length ts
                      /\ (List.length ms = 1%nat \/ List.length ms = 2%nat)) ->
                   kernel_weights ms ts k t bw_m bw_t = Raise ValueError).
  { intros Hn.
    destruct (Nat.eq_dec (List.length ms) (List.length ts)) as [Hlen | Hlen].
    - apply kernel_weights_raises; intros E; apply Hn; split; auto.
    - unfold kernel_weights, column_stack.
      rewrite (proj2 (Nat.eqb_neq _ _) Hlen). reflexivity. }
  split; split.
  - intros [w Hw].
    destruct (Nat.eq_dec (List.length ms) (List.length ts)) as [Hlen | Hlen];
      [ | rewrite Hraise in Hw by tauto; discriminate Hw].
    split; [exact Hlen | ].
    destruct (Nat.eq_dec (List.length ms) 1) as [H1 | H1]; [now left | ].
    destruct (Nat.eq_dec (List.length ms) 2) as [H2 | H2]; [now right | ].
    rewrite Hraise in Hw by tauto. discriminate Hw.
  - intros [Hlen Hn]. now apply kernel_weights_returns.
  - intros Hno.
    destruct (kernel_weights ms ts k t bw_m bw_t) as [w | []] eqn:E;
      [now elim (Hno w) | reflexivity].
  - intros E w. rewrite E. discriminate.
Qed.

(** X2.  Whenever [kernel_weights] returns, its result is the scalar 1.0
    or [NaN], whatever the quotes, the target and the bandwidths: the
    weight carries no information on the distance to the target. *)
Theorem kernel_weight_is_one_or_nan (ms ts : list npfloat)
  (k t bw_m bw_t w : npfloat) :
  kernel_weights ms ts k t bw_m bw_t = Return w -> w = Fin 1 \/ w = NaN.
Proof. apply kernel_weights_range. Qed.

(** One quote at moneyness 0.9, 40 days from expiry, against the target
    (1.0, 30). *)
Lemma kernel_weight_is_one_or_nan_witness :
  kernel_weights [Fin (9 / 10)] [Fin 40] (Fin 1) (Fin 30) bw_m_default bw_t_default
  = Return (Fin 1)
  /\ (Fin 1 = Fin 1 \/ Fin 1 = NaN).
Proof.
  split; [apply kernel_weights_single | ].
  apply (kernel_weight_is_one_or_nan [Fin (9 / 10)] [Fin 40] (Fin 1) (Fin 30)
           bw_m_default bw_t_default).
  apply kernel_weights_single.
Defined.

(** ** [construct_portfolio] *)

Lemma survivors_shape (data : list quote) (k_s tt : npfloat) (ty : string)
  (ms : list member) :
  surviving_members data k_s tt ty = Return ms ->
  ms = []
  \/ ms = map (fun q =>
                 mkMember q (Fin (1 / INR (List.length (select_type data ty)))))
            (select_type data ty).
Proof.
  unfold surviving_members. intros H.
  destruct (weighted_subset data k_s tt ty) as [ws | e] eqn:Hw;
    cbn [bind] in H; [ | discriminate H].
  injection H as <-.
  destruct (weighted_subset_inv _ _ _ _ _ Hw) as [w [[-> | ->] ->]].
  - rewrite drop_small_ones.
    destruct (select_type data ty) as [ | q qs] eqn:Hq; [now left | right].
    now rewrite renormalize_ones.
  - left. now rewrite drop_small_nans.
Qed.

(** X3.  The members that enter a bucket's return are all or nothing:
    either no row survives, or every row of the requested option type
    survives, each with the same weight 1/n. *)
Theorem survivors_all_or_none (data : list quote) (k_s tt : npfloat) (ty : string)
  (ms : list member) :
  surviving_members data k_s tt ty = Return ms ->
  ms = []
  \/ ms = map (fun q =>
                 mkMember q (Fin (1 / INR (List.length (select_type data ty)))))
            (select_type data ty).
Proof. apply survivors_shape. Qed.

(** A table holding one at-the-money call. *)
Lemma survivors_all_or_none_witness :
  surviving_members [atm_call (Fin 0)] (Fin 1) (Fin 30) "call"
  = Return [mkMember (atm_call (Fin 0)) (Fin (1 / 1))]
  /\ ([mkMember (atm_call (Fin 0)) (Fin (1 / 1))] = []
      \/ [mkMember (atm_call (Fin 0)) (Fin (1 / 1))]
         = map (fun q =>
                  mkMember q
                    (Fin (1 / INR (List.length
                                     (select_type [atm_call (Fin 0)] "call")))))
             (select_type [atm_call (Fin 0)] "call")).
Proof.
  split; [apply surviving_members_atm_call | ].
  apply (survivors_all_or_none [atm_call (Fin 0)] (Fin 1) (Fin 30) "call").
  apply surviving_members_atm_call.
Defined.

Lemma surviving_members_returns (data : list quote) (k_s tt : npfloat) (ty : string) :
  List.length (select_type data ty) = 1%nat
  \/ List.length (select_type data ty) = 2%nat ->
  exists ms, surviving_members data k_s tt ty = Return ms.
Proof.
  intros Hn. unfold surviving_members, weighted_subset.
  destruct (kernel_weights_returns (map moneyness (select_type data ty))
              (map ttm (select_type data ty)) k_s tt bw_m_default bw_t_default)
    as [w Hw].
  - now rewrite !length_map.
  - now rewrite length_map.
  - rewrite Hw. cbn [bind]. eexists. reflexivity.
Qed.

(** X4.  [construct_portfolio] returns exactly when the table holds one
    or two rows of the requested option type; with none (an empty table
    included) or with three or more it raises [ValueError], whatever the
    target and the rate. *)
Theorem construct_portfolio_returns_iff (data : list quote) (k_s tt : npfloat)
  (ty : string) (r : npfloat) :
  ((exists v, construct_portfolio data k_s tt ty r = Return v)
   <-> List.length (select_type data ty) = 1%nat
       \/ List.length (select_type data ty) = 2%nat)
  /\ (~ (List.length (select_type data ty) = 1%nat
         \/ List.length (select_type data ty) = 2%nat)
      <-> construct_portfolio data k_s tt ty r = Raise ValueError).
Proof.
  assert (Hret : List.length (select_type data ty) = 1%nat
                 \/ List.length (select_type data ty) = 2%nat ->
                 exists v, construct_portfolio data k_s tt ty r = Return v).
  { intros Hn. destruct (surviving_members_returns data k_s tt ty Hn) as [ms Hms].
    rewrite (construct_portfolio_of_members _ _ _ _ r _ Hms). eexists. reflexivity. }
  assert (Hraise : ~ (List.length (select_type data ty) = 1%nat
                      \/ List.length (select_type data ty) = 2%nat) ->
                   construct_portfolio data k_s tt ty r = Raise ValueError).
  { intros Hn. apply construct_portfolio_raises, surviving_members_raises; tauto. }
  split; split.
  - intros [v Hv].
    destruct (Nat.eq_dec (List.length (select_type data ty)) 1) as [H1 | H1];
      [now left | ].
    destruct (Nat.eq_dec (List.length (select_type data ty)) 2) as [H2 | H2];
      [now right | ].
    rewrite Hraise in Hv by tauto. discriminate Hv.
  - exact Hret.
  - exact Hraise.
  - intros E Hn. destruct (Hret Hn) as [v Hv]. rewrite E in Hv. discriminate Hv.
Qed.

Lemma select_type_app (d1 d2 : list quote) (ty : string) :
  select_type (d1 ++ d2) ty = (select_type d1 ty ++ select_type d2 ty)%list.
Proof. unfold select_type. apply filter_app. Qed.

Lemma select_type_none (d : list quote) (ty : string) :
  Forall (fun q => option_type q <> ty) d -> select_type d ty = [].
Proof.
  induction 1 as [ | q qs Hq _ IH]; [reflexivity | ].
  unfold select_type in *. cbn [filter].
  destruct (String.eqb_spec (option_type q) ty) as [E | _]; [contradiction | exact IH].
Qed.

Lemma construct_portfolio_same_subset (d1 d2 : list quote) (k_s tt : npfloat)
  (ty : string) (r : npfloat) :
  select_type d1 ty = select_type d2 ty ->
  construct_portfolio d1 k_s tt ty r = construct_portfolio d2 k_s tt ty r.
Proof.
  intros H. unfold construct_portfolio, surviving_members, weighted_subset.
  now rewrite H.
Qed.

(** X5.  Rows of another option type never influence a bucket: adding
    them to the table, before or after its rows, leaves the result of
    [construct_portfolio] unchanged, exceptions included. *)
Theorem other_types_are_ignored (data others : list quote) (k_s tt : npfloat)
  (ty : string) (r : npfloat) :
  Forall (fun q => option_type q <> ty) others ->
  construct_portfolio (data ++ others) k_s tt ty r
  = construct_portfolio data k_s tt ty r
  /\ construct_portfolio (others ++ data) k_s tt ty r
     = construct_portfolio data k_s tt ty r.
Proof.
  intros H. split; apply construct_portfolio_same_subset;
    rewrite select_type_app, (select_type_none _ _ H).
  - apply app_nil_r.
  - reflexivity.
Qed.

(** A call bucket with and without three puts in the table. *)
Lemma other_types_are_ignored_witness :
  Forall (fun q => option_type q <> "call"%string)
    [atm_put (Fin 0); atm_put (Fin 0); atm_put (Fin 0)]
  /\ construct_portfolio
       ([atm_call (Fin (1 / 100))]
        ++ [atm_put (Fin 0); atm_put (Fin 0); atm_put (Fin 0)])
       (Fin 1) (Fin 30) "call" r_default
     = construct_portfolio [atm_call (Fin (1 / 100))] (Fin 1) (Fin 30) "call"
         r_default.
Proof.
  assert (H : Forall (fun q => option_type q <> "call"%string)
                [atm_put (Fin 0); atm_put (Fin 0); atm_put (Fin 0)])
    by (repeat constructor; discriminate).
  split; [exact H | ].
  apply (other_types_are_ignored [atm_call (Fin (1 / 100))] _ (Fin 1) (Fin 30)
           "call" r_default H).
Defined.

(** ** [build_portfolios] *)

Lemma construct_portfolio_outcome (data : list quote) (k_s tt : npfloat)
  (ty : string) (r : npfloat) :
  (List.length (select_type data ty) = 1%nat
   \/ List.length (select_type data ty) = 2%nat ->
   exists v, construct_portfolio data k_s tt ty r = Return v)
  /\ (~ (List.length (select_type data ty) = 1%nat
         \/ List.length (select_type data ty) = 2%nat) ->
      construct_portfolio data k_s tt ty r = Raise ValueError).
Proof.
  split; intros Hn.
  - destruct (surviving_members_returns data k_s tt ty Hn) as [ms Hms].
    rewrite (construct_portfolio_of_members _ _ _ _ r _ Hms). eexists. reflexivity.
  - apply construct_portfolio_raises, surviving_members_raises; tauto.
Qed.

Lemma for_each_returns_iff (A B : Type) (body : A -> outcome (list B)) (xs : list A) :
  (exists rs, for_each xs body = Return rs)
  <-> Forall (fun x => exists r, body x = Return r) xs.
Proof.
  induction xs as [ | x xs IH]; simpl.
  - split; [constructor | intros _; eexists; reflexivity].
  - split.
    + intros [rs H]. returned H. returned H.
      constructor; [eexists; exact E | apply IH; eexists; reflexivity].
    + intros H. inversion H as [ | ? ? [r Hr] Hxs]; subst.
      apply IH in Hxs. destruct Hxs as [rs Hrs].
      rewrite Hr, Hrs. cbn [bind]. eexists. reflexivity.
Qed.

Lemma outcome_cases (A : Type) (m : outcome A) :
  (exists a, m = Return a) \/ m = Raise ValueError.
Proof. destruct m as [a | []]; [left; now exists a | now right]. Qed.

Lemma for_each_empty_bodies (A B : Type) (body : A -> outcome (list B))
  (xs : list A) :
  (forall x, body x = Return []) -> for_each xs body = Return [].
Proof.
  intros H. induction xs as [ | x xs IH]; [reflexivity | ].
  simpl. rewrite H, IH. reflexivity.
Qed.

Lemma length_flat_map_const (A B : Type) (f : A -> list B) (c : nat) (xs : list A) :
  (forall x, List.length (f x) = c) ->
  List.length (flat_map f xs) = (List.length xs * c)%nat.
Proof.
  intros H. induction xs as [ | x xs IH]; [reflexivity | ].
  simpl. rewrite length_app, H, IH. reflexivity.
Qed.

(** X6.  When [build_portfolios] returns, the panel holds
    len(option_types) * len(m_grid) * len(ttm_grid) records: one per
    bucket, option type outermost, then moneyness, then maturity, each
    with the value [construct_portfolio] returns for that bucket at the
    default rate r = 0.01. *)
Theorem panel_shape (data : list quote) (m_grid ttm_grid : list npfloat)
  (option_types : list string) (rs : list portfolio_record) :
  build_portfolios data m_grid ttm_grid option_types = Return rs ->
  List.length rs
  = (List.length option_types * (List.length m_grid * List.length ttm_grid))%nat
  /\ map (fun p => (p_type p, p_moneyness p, p_ttm p)) rs
     = bucket_ids option_types m_grid ttm_grid
  /\ Forall (fun p =>
       construct_portfolio data (p_moneyness p) (p_ttm p) (p_type p) (Fin (1 / 100))
       = Return (p_return p)) rs.
Proof.
  intros H. destruct (build_portfolios_records _ _ _ _ _ H) as [Hids Hret].
  split; [ | split; [exact Hids | exact Hret]].
  rewrite <- (length_map (fun p => (p_type p, p_moneyness p, p_ttm p)) rs), Hids.
  unfold bucket_ids.
  apply length_flat_map_const. intros ty.
  apply length_flat_map_const. intros k. apply length_map.
Qed.

(** One call, one bucket. *)
Lemma panel_shape_witness :
  build_portfolios [call_without_moneyness] [Fin 1] [Fin 30] ["call"%string]
  = Return [mkRecord "call" (Fin 1) (Fin 30) (Fin 0)]
  /\ List.length [mkRecord "call" (Fin 1) (Fin 30) (Fin 0)] = 1%nat.
Proof.
  assert (Hs : surviving_members [call_without_moneyness] (Fin 1) (Fin 30) "call"
               = Return []) by reflexivity.
  assert (Hb : build_portfolios [call_without_moneyness] [Fin 1] [Fin 30]
                 ["call"%string]
               = Return [mkRecord "call" (Fin 1) (Fin 30) (Fin 0)]).
  { unfold build_portfolios. cbn [for_each].
    rewrite (construct_portfolio_of_members _ _ _ _ _ _ Hs). reflexivity. }
  split; [exact Hb | ].
  apply (panel_shape _ _ _ _ _ Hb).
Defined.

Lemma bucket_loops_return_iff (data : list quote) (m_grid ttm_grid : list npfloat)
  (ty : string) :
  m_grid <> [] -> ttm_grid <> [] ->
  ((exists r,
       for_each m_grid (fun k_s =>
         for_each ttm_grid (fun ttm_ =>
           ret <- construct_portfolio data k_s ttm_ ty r_default ;;
           Return [mkRecord ty k_s ttm_ ret])) = Return r)
   <-> List.length (select_type data ty) = 1%nat
       \/ List.length (select_type data ty) = 2%nat).
Proof.
  intros Hm Ht. rewrite for_each_returns_iff. split.
  - intros H.
    destruct m_grid as [ | k ks]; [contradiction | ].
    inversion H as [ | ? ? Hk _]; subst.
    rewrite for_each_returns_iff in Hk.
    destruct ttm_grid as [ | t ts]; [contradiction | ].
    inversion Hk as [ | ? ? [r Hr] _]; subst.
    destruct (Nat.eq_dec (List.length (select_type data ty)) 1) as [H1 | H1];
      [now left | ].
    destruct (Nat.eq_dec (List.length (select_type data ty)) 2) as [H2 | H2];
      [now right | ].
    rewrite (proj2 (construct_portfolio_outcome data k t ty r_default)) in Hr
      by tauto.
    discriminate Hr.
  - intros Hn. apply Forall_forall. intros k _.
    apply for_each_returns_iff, Forall_forall. intros t _.
    destruct (proj1 (construct_portfolio_outcome data k t ty r_default) Hn)
      as [v Hv].
    rewrite Hv. cbn [bind]. eexists. reflexivity.
Qed.

(** X7.  With non-empty grids, [build_portfolios] returns exactly when
    the table holds one or two rows of every requested option type; if
    one requested type has none, or more than two, the whole call raises
    [ValueError] and no partial panel is produced. *)
Theorem build_portfolios_returns_iff (data : list quote)
  (m_grid ttm_grid : list npfloat) (option_types : list string) :
  m_grid <> [] -> ttm_grid <> [] ->
  ((exists rs, build_portfolios data m_grid ttm_grid option_types = Return rs)
   <-> Forall (fun ty => List.length (select_type data ty) = 1%nat
                         \/ List.length (select_type data ty) = 2%nat)
         option_types)
  /\ (~ Forall (fun ty => List.length (select_type data ty) = 1%nat
                          \/ List.length (select_type data ty) = 2%nat)
          option_types ->
      build_portfolios data m_grid ttm_grid option_types = Raise ValueError).
Proof.
  intros Hm Ht.
  assert (Hiff : (exists rs, build_portfolios data m_grid ttm_grid option_types
                             = Return rs)
                 <-> Forall (fun ty => List.length (select_type data ty) = 1%nat
                                       \/ List.length (select_type data ty) = 2%nat)
                       option_types).
  { unfold build_portfolios. rewrite for_each_returns_iff, !Forall_forall.
    split; intros H ty Hty.
    - apply (bucket_loops_return_iff data m_grid ttm_grid ty Hm Ht), H, Hty.
    - apply (bucket_loops_return_iff data m_grid ttm_grid ty Hm Ht), H, Hty. }
  split; [exact Hiff | ].
  intros Hn.
  destruct (outcome_cases _ (build_portfolios data m_grid ttm_grid option_types))
    as [Hr | Hr]; [ | exact Hr].
  apply Hiff in Hr. contradiction.
Qed.

(** A table of one call and one put on a one-cell grid. *)
Lemma build_portfolios_returns_iff_witness :
  [Fin 1] <> [] /\ [Fin 30] <> []
  /\ ((exists rs,
          build_portfolios [atm_call (Fin 0); atm_put (Fin 0)] [Fin 1] [Fin 30]
            ["call"%string; "put"%string] = Return rs)
      <-> Forall (fun ty =>
                    List.length
                      (select_type [atm_call (Fin 0); atm_put (Fin 0)] ty) = 1%nat
                    \/ List.length
                         (select_type [atm_call (Fin 0); atm_put (Fin 0)] ty)
                       = 2%nat)
            ["call"%string; "put"%string]).
Proof.
  split; [discriminate | split; [discriminate | ]].
  apply (build_portfolios_returns_iff [atm_call (Fin 0); atm_put (Fin 0)]
           [Fin 1] [Fin 30] ["call"%string; "put"%string]); discriminate.
Defined.

(** X8.  With an empty list of option types, an empty moneyness grid or
    an empty maturity grid, [build_portfolios] returns an empty panel for
    every table: [construct_portfolio] is never called, so nothing is
    raised either. *)
Theorem empty_grid_gives_empty_panel (data : list quote)
  (m_grid ttm_grid : list npfloat) (option_types : list string) :
  option_types = [] \/ m_grid = [] \/ ttm_grid = [] ->
  build_portfolios data m_grid ttm_grid option_types = Return [].
Proof.
  unfold build_portfolios. intros [-> | [-> | ->]].
  - reflexivity.
  - now apply for_each_empty_bodies.
  - apply for_each_empty_bodies. intros ty.
    now apply for_each_empty_bodies.
Qed.

(** Three calls, on which every bucket raises, and an empty maturity
    grid. *)
Lemma empty_grid_gives_empty_panel_witness :
  build_portfolios three_calls [Fin 1] [] ["call"%string] = Return [].
Proof.
  apply (empty_grid_gives_empty_panel three_calls [Fin 1] [] ["call"%string]).
  right. right. reflexivity.
Defined.

(** ** [bs_elasticity] *)

Lemma bs_elasticity_nan_d1 (S K T r sigma : npfloat) (ty : string) :
  np_div
    (np_add (np_log (np_div S K))
       (np_mul (np_add r (np_mul (Fin (1 / 2)) (np_pow2 sigma))) T))
    (np_mul sigma (np_sqrt T)) = NaN ->
  bs_elasticity S K T r sigma ty = Return [NaN; NaN].
Proof.
  intros H. unfold bs_elasticity. rewrite H.
  unfold np_sub. cbn [norm_cdf np_neg np_add].
  rewrite !np_mul_nan_r. cbn [np_add np_neg np_mul np_div].
  destruct (String.eqb ty "call"); reflexivity.
Qed.

(** X9.  A missing value ([NaN]) in any of S, K, T, r or sigma makes
    [bs_elasticity] return [(NaN, NaN)], for calls and puts alike. *)
Theorem bs_elasticity_propagates_nan (S K T r sigma : npfloat) (ty : string) :
  S = NaN \/ K = NaN \/ T = NaN \/ r = NaN \/ sigma = NaN ->
  bs_elasticity S K T r sigma ty = Return [NaN; NaN].
Proof.
  intros H. apply bs_elasticity_nan_d1.
  destruct H as [-> | [-> | [-> | [-> | ->]]]].
  - reflexivity.
  - rewrite np_div_nan_r. reflexivity.
  - cbn [np_sqrt]. now rewrite !np_mul_nan_r, np_div_nan_r.
  - cbn [np_add np_mul]. now rewrite np_add_nan_r.
  - cbn [np_mul]. now rewrite np_div_nan_r.
Qed.

(** A call whose implied volatility is missing. *)
Lemma bs_elasticity_propagates_nan_witness :
  bs_elasticity (Fin 100) (Fin 100) (Fin (1 / 4)) (Fin (1 / 100)) NaN "call"
  = Return [NaN; NaN].
Proof.
  apply (bs_elasticity_propagates_nan (Fin 100) (Fin 100) (Fin (1 / 4))
           (Fin (1 / 100)) NaN "call").
  right. right. right. right. reflexivity.
Defined.

Lemma bs_elasticity_else_branch (S K T r sigma : npfloat) (ty : string) :
  ty <> "call"%string ->
  bs_elasticity S K T r sigma ty = bs_elasticity S K T r sigma "put".
Proof.
  intros H. unfold bs_elasticity.
  destruct (String.eqb_spec ty "call") as [E | _]; [contradiction | reflexivity].
Qed.

(** X10.  For S > 0, K > 0, T > 0 and sigma > 0 (any rate), both
    components returned by [bs_elasticity] are finite and the
    theoretical price is strictly positive, for a call and for every
    other option type (all priced as puts). *)
Theorem bs_price_is_positive (S K T r sigma : R) (ty : string) :
  0 < S -> 0 < K -> 0 < T -> 0 < sigma ->
  exists e p,
    bs_elasticity (Fin S) (Fin K) (Fin T) (Fin r) (Fin sigma) ty
    = Return [Fin e; Fin p]
    /\ 0 < p.
Proof.
  intros HS HK HT Hsig.
  destruct (String.eqb_spec ty "call") as [-> | Hty].
  - eexists. eexists. split.
    + apply bs_elasticity_call_valid; assumption.
    + apply call_price_pos; assumption.
  - rewrite (bs_elasticity_else_branch _ _ _ _ _ _ Hty).
    eexists. eexists. split.
    + apply bs_elasticity_put_valid; assumption.
    + apply put_price_pos; assumption.
Qed.

(** An out-of-the-money put under a negative rate. *)
Lemma bs_price_is_positive_witness :
  0 < 100 /\ 0 < 90 /\ 0 < 1 / 12 /\ 0 < 1 / 5
  /\ exists e p,
       bs_elasticity (Fin 100) (Fin 90) (Fin (1 / 12)) (Fin (- (1 / 100)))
         (Fin (1 / 5)) "put"
       = Return [Fin e; Fin p]
       /\ 0 < p.
Proof.
  split; [lra | split; [lra | split; [lra | split; [lra | ]]]].
  apply (bs_price_is_positive 100 90 (1 / 12) (- (1 / 100)) (1 / 5) "put"); lra.
Defined.

Lemma spec_d1_scale (c S K T r sigma : R) :
  0 < c -> 0 < K ->
  spec_d1 (c * S) (c * K) T r sigma = spec_d1 S K T r sigma.
Proof.
  intros Hc HK. unfold spec_d1.
  replace (c * S / (c * K)) with (S / K) by (field; lra). reflexivity.
Qed.

(** X11.  [bs_elasticity] is homogeneous in (S, K): scaling the
    underlying level and the strike by the same factor c > 0 scales the
    price by c and leaves the elasticity unchanged. *)
Theorem bs_elasticity_homogeneous (c S K T r sigma : R) :
  0 < c -> 0 < S -> 0 < K -> 0 < T -> 0 < sigma ->
  (exists e p,
      bs_elasticity (Fin S) (Fin K) (Fin T) (Fin r) (Fin sigma) "call"
      = Return [Fin e; Fin p]
      /\ bs_elasticity (Fin (c * S)) (Fin (c * K)) (Fin T) (Fin r) (Fin sigma) "call"
         = Return [Fin e; Fin (c * p)])
  /\ (exists e p,
      bs_elasticity (Fin S) (Fin K) (Fin T) (Fin r) (Fin sigma) "put"
      = Return [Fin e; Fin p]
      /\ bs_elasticity (Fin (c * S)) (Fin (c * K)) (Fin T) (Fin r) (Fin sigma) "put"
         = Return [Fin e; Fin (c * p)]).
Proof.
  intros Hc HS HK HT Hsig.
  assert (HcS : 0 < c * S) by (apply Rmult_lt_0_compat; assumption).
  assert (HcK : 0 < c * K) by (apply Rmult_lt_0_compat; assumption).
  split; eexists; eexists; split.
  - apply bs_elasticity_call_valid; assumption.
  - rewrite bs_elasticity_call_valid by assumption.
    assert (Hp := call_price_pos S K T r sigma HS HK HT Hsig).
    assert (Hprice : spec_call_price (c * S) (c * K) T r sigma
                     = c * spec_call_price S K T r sigma).
    { unfold spec_call_price. rewrite spec_d1_scale by assumption. ring. }
    assert (Hdelta : spec_call_delta (c * S) (c * K) T r sigma
                     = spec_call_delta S K T r sigma).
    { unfold spec_call_delta. now rewrite spec_d1_scale. }
    rewrite Hprice, Hdelta. do 3 f_equal. field. lra.
  - apply bs_elasticity_put_valid; assumption.
  - rewrite bs_elasticity_put_valid by assumption.
    assert (Hp := put_price_pos S K T r sigma HS HK HT Hsig).
    assert (Hprice : spec_put_price (c * S) (c * K) T r sigma
                     = c * spec_put_price S K T r sigma).
    { unfold spec_put_price. rewrite spec_d1_scale by assumption. ring. }
    assert (Hdelta : spec_put_delta (c * S) (c * K) T r sigma
                     = spec_put_delta S K T r sigma).
    { unfold spec_put_delta. now rewrite spec_d1_scale. }
    rewrite Hprice, Hdelta. do 3 f_equal. field. lra.
Qed.

(** The index at 100 and at 4000, strike 5% out of the money. *)
Lemma bs_elasticity_homogeneous_witness :
  0 < 40 /\ 0 < 100 /\ 0 < 105 /\ 0 < 1 / 12 /\ 0 < 1 / 5
  /\ exists e p,
       bs_elasticity (Fin 100) (Fin 105) (Fin (1 / 12)) (Fin (1 / 100))
         (Fin (1 / 5)) "call"
       = Return [Fin e; Fin p]
       /\ bs_elasticity (Fin (40 * 100)) (Fin (40 * 105)) (Fin (1 / 12))
            (Fin (1 / 100)) (Fin (1 / 5)) "call"
          = Return [Fin e; Fin (40 * p)].
Proof.
  split; [lra | split; [lra | split; [lra | split; [lra | split; [lra | ]]]]].
  destruct (bs_elasticity_homogeneous 40 100 105 (1 / 12) (1 / 100) (1 / 5))
    as [Hcall _]; try lra.
  exact Hcall.
Defined.

(** *** Zero total volatility: T = 0 or sigma = 0 *)

Lemma inf_of_sign_pos (x : R) : 0 < x -> inf_of_sign x = PInf.
Proof.
  intros H. unfold inf_of_sign. destruct (Rlt_dec 0 x); [reflexivity | contradiction].
Qed.

Lemma inf_of_sign_neg (x : R) : x < 0 -> inf_of_sign x = NInf.
Proof.
  intros H. unfold inf_of_sign.
  destruct (Rlt_dec 0 x); [lra | ]. destruct (Rlt_dec x 0); [reflexivity | contradiction].
Qed.

Lemma inf_of_sign_zero : inf_of_sign 0 = NaN.
Proof.
  unfold inf_of_sign. destruct (Rlt_dec 0 0); [lra | reflexivity].
Qed.

(** Equality of two returned pairs of finite numbers, component by
    component. *)
Ltac pair_eq :=
  apply f_equal; apply (f_equal2 (@cons npfloat));
  [ apply f_equal
  | apply (f_equal2 (@cons npfloat)); [apply f_equal | reflexivity] ].

Section ZeroTotalVolatility.

Variables S K T r sigma : R.
Hypothesis HS : 0 < S.
Hypothesis HK : 0 < K.
Hypothesis HT : 0 <= T.
Hypothesis Hvol : sigma * sqrt T = 0.

Lemma zero_vol_variance_term : sigma * sigma * T = 0.
Proof.
  destruct (Rmult_integral _ _ Hvol) as [-> | Hs]; [ring | ].
  apply sqrt_eq_0 in Hs; [ | exact HT]. rewrite Hs. ring.
Qed.

(** The numerator of d1 is the log of the ratio of S to the discounted
    strike. *)
Lemma zero_vol_numerator :
  ln (S / K) + (r + 1 / 2 * (sigma * sigma)) * T
  = ln S - ln (K * exp (- r * T)).
Proof.
  assert (Hv := zero_vol_variance_term).
  rewrite ln_mult by (try apply exp_pos; assumption).
  rewrite ln_exp. unfold Rdiv. rewrite ln_mult by (try apply Rinv_0_lt_compat; assumption).
  rewrite ln_Rinv by assumption.
  replace ((r + 1 * / 2 * (sigma * sigma)) * T)
    with (r * T + / 2 * (sigma * sigma * T)) by ring.
  rewrite Hv. ring.
Qed.

Lemma zero_vol_d1 :
  np_div
    (np_add (np_log (np_div (Fin S) (Fin K)))
       (np_mul (np_add (Fin r) (np_mul (Fin (1 / 2)) (np_pow2 (Fin sigma)))) (Fin T)))
    (np_mul (Fin sigma) (np_sqrt (Fin T)))
  = inf_of_sign (ln S - ln (K * exp (- r * T))).
Proof.
  rewrite (np_div_fin S K) by lra.
  rewrite np_log_fin by (apply Rdiv_lt_0_compat; assumption).
  rewrite np_sqrt_fin by exact HT.
  unfold np_pow2. cbn [np_mul np_add]. rewrite Hvol, zero_vol_numerator.
  unfold np_div. destruct (Req_EM_T 0 0) as [_ | N]; [reflexivity | contradiction].
Qed.

Lemma zero_vol_denominator : np_mul (Fin sigma) (np_sqrt (Fin T)) = Fin 0.
Proof. rewrite np_sqrt_fin by exact HT. cbn [np_mul]. now rewrite Hvol. Qed.

Lemma zero_vol_call_in_the_money :
  K * exp (- r * T) < S ->
  bs_elasticity (Fin S) (Fin K) (Fin T) (Fin r) (Fin sigma) "call"
  = Return [Fin (S / (S - K * exp (- r * T))); Fin (S - K * exp (- r * T))].
Proof.
  intros Hk. assert (Hk0 : 0 < K * exp (- r * T))
    by (apply Rmult_lt_0_compat; [exact HK | apply exp_pos]).
  unfold bs_elasticity. rewrite zero_vol_d1, zero_vol_denominator.
  rewrite inf_of_sign_pos by (apply Rlt_0_minus, ln_increasing; assumption).
  cbn [String.eqb Ascii.eqb Bool.eqb norm_cdf np_sub np_add np_neg np_mul np_exp].
  rewrite np_div_fin by lra.
  pair_eq; [field; lra | ring].
Qed.

Lemma zero_vol_call_out_of_the_money :
  S < K * exp (- r * T) ->
  bs_elasticity (Fin S) (Fin K) (Fin T) (Fin r) (Fin sigma) "call"
  = Return [NaN; Fin 0].
Proof.
  intros Hk. unfold bs_elasticity. rewrite zero_vol_d1, zero_vol_denominator.
  rewrite inf_of_sign_neg
    by (apply Rlt_minus, ln_increasing; assumption).
  cbn [String.eqb Ascii.eqb Bool.eqb norm_cdf np_sub np_add np_neg np_mul np_exp].
  replace (S * 0 + - (K * exp (- r * T) * 0)) with 0 by ring.
  replace (0 * S) with 0 by ring.
  now rewrite np_div_zero_zero.
Qed.

Lemma zero_vol_put_in_the_money :
  S < K * exp (- r * T) ->
  bs_elasticity (Fin S) (Fin K) (Fin T) (Fin r) (Fin sigma) "put"
  = Return [Fin (- S / (K * exp (- r * T) - S)); Fin (K * exp (- r * T) - S)].
Proof.
  intros Hk. unfold bs_elasticity. rewrite zero_vol_d1, zero_vol_denominator.
  rewrite inf_of_sign_neg
    by (apply Rlt_minus, ln_increasing; assumption).
  cbn [String.eqb Ascii.eqb Bool.eqb norm_cdf np_sub np_add np_neg np_mul np_exp].
  rewrite np_div_fin by lra.
  pair_eq; [field; lra | ring].
Qed.

Lemma zero_vol_put_out_of_the_money :
  K * exp (- r * T) < S ->
  bs_elasticity (Fin S) (Fin K) (Fin T) (Fin r) (Fin sigma) "put"
  = Return [NaN; Fin 0].
Proof.
  intros Hk. assert (Hk0 : 0 < K * exp (- r * T))
    by (apply Rmult_lt_0_compat; [exact HK | apply exp_pos]).
  unfold bs_elasticity. rewrite zero_vol_d1, zero_vol_denominator.
  rewrite inf_of_sign_pos by (apply Rlt_0_minus, ln_increasing; assumption).
  cbn [String.eqb Ascii.eqb Bool.eqb norm_cdf np_sub np_add np_neg np_mul np_exp].
  replace (K * exp (- r * T) * 0 + - (S * 0)) with 0 by ring.
  replace (- 0 * S) with 0 by ring.
  now rewrite np_div_zero_zero.
Qed.

Lemma zero_vol_at_the_forward (ty : string) :
  S = K * exp (- r * T) ->
  bs_elasticity (Fin S) (Fin K) (Fin T) (Fin r) (Fin sigma) ty
  = Return [NaN; NaN].
Proof.
  intros Hk. apply bs_elasticity_nan_d1. rewrite zero_vol_d1, <- Hk.
  rewrite Rminus_diag. apply inf_of_sign_zero.
Qed.

End ZeroTotalVolatility.

(** X12.  A call with zero total volatility (T = 0 or sigma = 0, with
    S > 0, K > 0, T >= 0, sigma >= 0) is priced without any error: above
    the discounted strike K e^(-rT) it gets its discounted intrinsic
    value S - K e^(-rT) and the elasticity S / (S - K e^(-rT)); below it
    the price is 0.0 and the elasticity is [NaN]; exactly at it both are
    [NaN]. *)
Theorem call_at_zero_volatility (S K T r sigma : R) :
  0 < S -> 0 < K -> 0 <= T -> 0 <= sigma -> sigma * sqrt T = 0 ->
  (K * exp (- r * T) < S ->
   bs_elasticity (Fin S) (Fin K) (Fin T) (Fin r) (Fin sigma) "call"
   = Return [Fin (S / (S - K * exp (- r * T))); Fin (S - K * exp (- r * T))])
  /\ (S < K * exp (- r * T) ->
      bs_elasticity (Fin S) (Fin K) (Fin T) (Fin r) (Fin sigma) "call"
      = Return [NaN; Fin 0])
  /\ (S = K * exp (- r * T) ->
      bs_elasticity (Fin S) (Fin K) (Fin T) (Fin r) (Fin sigma) "call"
      = Return [NaN; NaN]).
Proof.
  intros HS HK HT _ Hvol. split; [ | split].
  - now apply zero_vol_call_in_the_money.
  - now apply zero_vol_call_out_of_the_money.
  - now apply zero_vol_at_the_forward.
Qed.

(** A call struck at 100 on its expiry day, the index at 110. *)
Lemma call_at_zero_volatility_witness :
  0 < 110 /\ 0 < 100 /\ 0 <= 0 /\ 0 <= 1 / 5 /\ 1 / 5 * sqrt 0 = 0
  /\ (100 * exp (- (1 / 100) * 0) < 110 ->
      bs_elasticity (Fin 110) (Fin 100) (Fin 0) (Fin (1 / 100)) (Fin (1 / 5)) "call"
      = Return [Fin (110 / (110 - 100 * exp (- (1 / 100) * 0)));
                Fin (110 - 100 * exp (- (1 / 100) * 0))]).
Proof.
  assert (Hvol : 1 / 5 * sqrt 0 = 0) by (rewrite sqrt_0; ring).
  split; [lra | split; [lra | split; [lra | split; [lra | split; [exact Hvol | ]]]]].
  destruct (call_at_zero_volatility 110 100 0 (1 / 100) (1 / 5)) as [Hitm _];
    try lra; first [exact Hvol | exact Hitm].
Defined.

(** X13.  A put with zero total volatility (T = 0 or sigma = 0, with
    S > 0, K > 0, T >= 0, sigma >= 0): below the discounted strike
    K e^(-rT) it gets K e^(-rT) - S and the elasticity
    -S / (K e^(-rT) - S); above it the price is 0.0 and the elasticity is
    [NaN]; exactly at it both are [NaN]. *)
Theorem put_at_zero_volatility (S K T r sigma : R) :
  0 < S -> 0 < K -> 0 <= T -> 0 <= sigma -> sigma * sqrt T = 0 ->
  (S < K * exp (- r * T) ->
   bs_elasticity (Fin S) (Fin K) (Fin T) (Fin r) (Fin sigma) "put"
   = Return [Fin (- S / (K * exp (- r * T) - S)); Fin (K * exp (- r * T) - S)])
  /\ (K * exp (- r * T) < S ->
      bs_elasticity (Fin S) (Fin K) (Fin T) (Fin r) (Fin sigma) "put"
      = Return [NaN; Fin 0])
  /\ (S = K * exp (- r * T) ->
      bs_elasticity (Fin S) (Fin K) (Fin T) (Fin r) (Fin sigma) "put"
      = Return [NaN; NaN]).
Proof.
  intros HS HK HT _ Hvol. split; [ | split].
  - now apply zero_vol_put_in_the_money.
  - now apply zero_vol_put_out_of_the_money.
  - now apply zero_vol_at_the_forward.
Qed.

(** A put struck at 100, one month from expiry, quoted with zero implied
    volatility, the index at 90. *)
Lemma put_at_zero_volatility_witness :
  0 < 90 /\ 0 < 100 /\ 0 <= 1 / 12 /\ 0 <= 0 /\ 0 * sqrt (1 / 12) = 0
  /\ (90 < 100 * exp (- (1 / 100) * (1 / 12)) ->
      bs_elasticity (Fin 90) (Fin 100) (Fin (1 / 12)) (Fin (1 / 100)) (Fin 0) "put"
      = Return [Fin (- 90 / (100 * exp (- (1 / 100) * (1 / 12)) - 90));
                Fin (100 * exp (- (1 / 100) * (1 / 12)) - 90)]).
Proof.
  assert (Hvol : 0 * sqrt (1 / 12) = 0) by ring.
  split; [lra | split; [lra | split; [lra | split; [lra | split; [exact Hvol | ]]]]].
  destruct (put_at_zero_volatility 90 100 (1 / 12) (1 / 100) 0) as [Hitm _];
    try lra; first [exact Hvol | exact Hitm].
Defined.

(** *** Negative volatility *)

Section NonZeroVolatility.

Import NormalCdf.

Variables S K T r sigma : R.
Hypothesis HS : 0 < S.
Hypothesis HK : 0 < K.
Hypothesis HT : 0 < T.
Hypothesis Hvol : sigma * sqrt T <> 0.

Let d1 := spec_d1 S K T r sigma.
Let sT := sigma * sqrt T.
Let k := K * exp (- r * T).
Let e2 := exp ((d1 - sT) * (d1 - sT) / 2).

Lemma spot_from_strike_nz : S = k * / e2 * exp (d1 * d1 / 2).
Proof.
  assert (Hd : d1 * sT = ln (S / K) + (r + sigma ^ 2 / 2) * T).
  { unfold d1, spec_d1. fold sT. field. exact Hvol. }
  assert (Hsq : sT * sT = sigma ^ 2 * T).
  { unfold sT. replace (sigma * sqrt T * (sigma * sqrt T))
      with (sigma ^ 2 * (sqrt T * sqrt T)) by ring.
    rewrite sqrt_sqrt by lra. reflexivity. }
  assert (Hh : - ((d1 - sT) * (d1 - sT) / 2) + d1 * d1 / 2 = ln (S / K) + r * T).
  { replace (- ((d1 - sT) * (d1 - sT) / 2) + d1 * d1 / 2)
      with (d1 * sT - sT * sT / 2) by field.
    rewrite Hd, Hsq. field. }
  unfold k, e2. rewrite <- exp_Ropp, !Rmult_assoc, <- !exp_plus.
  replace (- r * T + (- ((d1 - sT) * (d1 - sT) / 2) + d1 * d1 / 2))
    with (ln (S / K)) by (rewrite Hh; ring).
  rewrite exp_ln by (apply Rdiv_lt_0_compat; assumption).
  field. lra.
Qed.

Lemma call_price_factor :
  spec_call_price S K T r sigma
  = k * / e2 * (mills_ratio d1 - mills_ratio (d1 - sT)).
Proof.
  unfold spec_call_price. fold d1 sT k.
  rewrite spot_from_strike_nz at 1.
  unfold mills_ratio. fold e2.
  assert (He2 : 0 < e2) by apply exp_pos.
  field. lra.
Qed.

Lemma put_price_factor :
  spec_put_price S K T r sigma
  = k * / e2 * (mills_ratio (- d1 + sT) - mills_ratio (- d1)).
Proof.
  unfold spec_put_price. fold d1 sT k.
  rewrite spot_from_strike_nz at 1.
  unfold mills_ratio.
  replace ((- d1 + sT) * (- d1 + sT) / 2) with ((d1 - sT) * (d1 - sT) / 2) by field.
  replace (- d1 * - d1 / 2) with (d1 * d1 / 2) by field.
  fold e2.
  assert (He2 : 0 < e2) by apply exp_pos.
  field. lra.
Qed.

Lemma price_factor_pos : 0 < k * / e2.
Proof.
  apply Rmult_lt_0_compat.
  - apply Rmult_lt_0_compat; [exact HK | apply exp_pos].
  - apply Rinv_0_lt_compat, exp_pos.
Qed.

End NonZeroVolatility.

Lemma bs_elasticity_call_formula (S K T r sigma : R) :
  0 < S -> 0 < K -> 0 <= T -> sigma * sqrt T <> 0 ->
  spec_call_price S K T r sigma <> 0 ->
  bs_elasticity (Fin S) (Fin K) (Fin T) (Fin r) (Fin sigma) "call"
  = Return [Fin (spec_call_delta S K T r sigma * S / spec_call_price S K T r sigma);
            Fin (spec_call_price S K T r sigma)].
Proof.
  intros HS HK HT HsT Hp.
  unfold bs_elasticity. simpl String.eqb. cbv iota.
  rewrite (np_div_fin S K) by lra.
  rewrite np_log_fin by (apply Rdiv_lt_0_compat; assumption).
  rewrite np_sqrt_fin by lra.
  unfold np_pow2, np_sub. simpl.
  destruct (Req_EM_T (sigma * sqrt T) 0) as [E | _]; [contradiction | ].
  rewrite code_d1. simpl. fold (spec_call_delta S K T r sigma).
  replace (S * spec_call_delta S K T r sigma
           + - (K * exp (- r * T)
                * NormalCdf.Phi (spec_d1 S K T r sigma + - (sigma * sqrt T))))
    with (spec_call_price S K T r sigma)
    by (unfold spec_call_price, spec_call_delta, Rminus; reflexivity || ring).
  destruct (Req_EM_T (spec_call_price S K T r sigma) 0) as [E | _];
    [contradiction | reflexivity].
Qed.

Lemma bs_elasticity_put_formula (S K T r sigma : R) :
  0 < S -> 0 < K -> 0 <= T -> sigma * sqrt T <> 0 ->
  spec_put_price S K T r sigma <> 0 ->
  bs_elasticity (Fin S) (Fin K) (Fin T) (Fin r) (Fin sigma) "put"
  = Return [Fin (spec_put_delta S K T r sigma * S / spec_put_price S K T r sigma);
            Fin (spec_put_price S K T r sigma)].
Proof.
  intros HS HK HT HsT Hp.
  unfold bs_elasticity. simpl String.eqb. cbv iota.
  rewrite (np_div_fin S K) by lra.
  rewrite np_log_fin by (apply Rdiv_lt_0_compat; assumption).
  rewrite np_sqrt_fin by lra.
  unfold np_pow2, np_sub. simpl.
  destruct (Req_EM_T (sigma * sqrt T) 0) as [E | _]; [contradiction | ].
  rewrite code_d1. simpl. fold (spec_put_delta S K T r sigma).
  replace (K * exp (- r * T)
           * NormalCdf.Phi (- spec_d1 S K T r sigma + sigma * sqrt T)
           + - (S * NormalCdf.Phi (- spec_d1 S K T r sigma)))
    with (spec_put_price S K T r sigma)
    by (unfold spec_put_price, Rminus; reflexivity || ring).
  destruct (Req_EM_T (spec_put_price S K T r sigma) 0) as [E | _];
    [contradiction | reflexivity].
Qed.

Lemma negative_vol_prices (S K T r sigma : R) :
  0 < S -> 0 < K -> 0 < T -> sigma < 0 ->
  spec_call_price S K T r sigma < 0 /\ spec_put_price S K T r sigma < 0.
Proof.
  intros HS HK HT Hsig.
  assert (HsT : sigma * sqrt T < 0).
  { assert (H := sqrt_lt_R0 T HT). nra. }
  assert (Hnz : sigma * sqrt T <> 0) by lra.
  assert (Hf := price_factor_pos S K T r sigma HK).
  split.
  - rewrite (call_price_factor S K T r sigma HS HK HT Hnz).
    assert (Hm := NormalCdf.mills_ratio_increasing (spec_d1 S K T r sigma)
                    (spec_d1 S K T r sigma - sigma * sqrt T) ltac:(lra)).
    nra.
  - rewrite (put_price_factor S K T r sigma HS HK HT Hnz).
    assert (Hm := NormalCdf.mills_ratio_increasing
                    (- spec_d1 S K T r sigma + sigma * sqrt T)
                    (- spec_d1 S K T r sigma) ltac:(lra)).
    nra.
Qed.

(** X14.  A negative volatility is accepted without any error: for
    S > 0, K > 0, T > 0 and sigma < 0 both components are finite, the
    theoretical price is strictly negative for calls and for puts, the
    call elasticity is strictly negative and the put elasticity strictly
    positive. *)
Theorem negative_volatility_flips_signs (S K T r sigma : R) :
  0 < S -> 0 < K -> 0 < T -> sigma < 0 ->
  (exists e p,
      bs_elasticity (Fin S) (Fin K) (Fin T) (Fin r) (Fin sigma) "call"
      = Return [Fin e; Fin p] /\ p < 0 /\ e < 0)
  /\ (exists e p,
      bs_elasticity (Fin S) (Fin K) (Fin T) (Fin r) (Fin sigma) "put"
      = Return [Fin e; Fin p] /\ p < 0 /\ 0 < e).
Proof.
  intros HS HK HT Hsig.
  assert (HsT : sigma * sqrt T <> 0).
  { assert (H := sqrt_lt_R0 T HT). nra. }
  destruct (negative_vol_prices S K T r sigma HS HK HT Hsig) as [Hc Hp].
  split; eexists; eexists; (split; [ | split]).
  - apply bs_elasticity_call_formula; lra.
  - exact Hc.
  - unfold spec_call_delta.
    assert (Hn : 0 < NormalCdf.Phi (spec_d1 S K T r sigma) * S)
      by (apply Rmult_lt_0_compat; [apply NormalCdf.Phi_pos | exact HS]).
    set (P := spec_call_price S K T r sigma) in *.
    assert (Hi : / P < 0) by now apply Rinv_lt_0_compat.
    unfold Rdiv. nra.
  - apply bs_elasticity_put_formula; lra.
  - exact Hp.
  - unfold spec_put_delta.
    assert (Hn : 0 < NormalCdf.Phi (- spec_d1 S K T r sigma) * S)
      by (apply Rmult_lt_0_compat; [apply NormalCdf.Phi_pos | exact HS]).
    set (P := spec_put_price S K T r sigma) in *.
    assert (Hi : / P < 0) by now apply Rinv_lt_0_compat.
    unfold Rdiv. nra.
Qed.

(** An at-the-money call quoted with sigma = -0.2. *)
Lemma negative_volatility_flips_signs_witness :
  0 < 100 /\ 0 < 1 / 4 /\ - (1 / 5) < 0
  /\ exists e p,
       bs_elasticity (Fin 100) (Fin 100) (Fin (1 / 4)) (Fin (1 / 100))
         (Fin (- (1 / 5))) "call"
       = Return [Fin e; Fin p] /\ p < 0 /\ e < 0.
Proof.
  split; [lra | split; [lra | split; [lra | ]]].
  destruct (negative_volatility_flips_signs 100 100 (1 / 4) (1 / 100) (- (1 / 5)))
    as [Hcall _]; try lra.
  exact Hcall.
Defined.

(** ** Pricing and aggregation together *)

Lemma call_term_is_damped (r0 w : R) (q : quote) :
  valid_row q ->
  exists a,
    weighted_leverage_return (Fin r0) "call" (mkMember q (Fin w)) = Fin (a * w)
    /\ Rabs a <= Rabs (fin_value (daily_return q)).
Proof.
  intros (S & K & t & sigma & rho & HS & HK & Ht & Hi & Hr & HS0 & HK0 & Ht0 & Hs0).
  assert (HT : 0 < t / 365) by (apply Rdiv_lt_0_compat; lra).
  assert (He := call_elasticity_gt_1 S K (t / 365) r0 sigma HS0 HK0 HT Hs0).
  set (e := spec_call_delta S K (t / 365) r0 sigma * S
            / spec_call_price S K (t / 365) r0 sigma) in *.
  exists (rho / e).
  unfold weighted_leverage_return, elasticity, elasticity_of. cbn [row weight].
  rewrite HS, HK, Ht, Hi, Hr, np_div_fin by lra.
  rewrite bs_elasticity_call_valid by assumption. cbn [bind]. fold e.
  rewrite np_div_fin by lra. cbn [np_mul fin_value]. split; [reflexivity | ].
  unfold Rdiv. rewrite Rabs_mult.
  rewrite <- (Rmult_1_r (Rabs rho)) at 2.
  apply Rmult_le_compat_l; [apply Rabs_pos | ].
  rewrite Rabs_inv, (Rabs_pos_eq e) by lra.
  rewrite <- Rinv_1. apply Rinv_le_contravar; lra.
Qed.

Lemma call_terms_sum (r0 w : R) (rows : list quote) :
  Forall valid_row rows ->
  forall acc,
  exists v,
    fold_left np_add
      (map (fun q => weighted_leverage_return (Fin r0) "call" (mkMember q (Fin w)))
         rows) (Fin acc) = Fin v
    /\ Rabs (v - acc)
       <= Rabs w * sum_list (map (fun q => Rabs (fin_value (daily_return q))) rows).
Proof.
  induction 1 as [ | q rows Hq _ IH]; intros acc.
  - exists acc. split; [reflexivity | ].
    simpl. rewrite Rminus_diag, Rabs_R0. lra.
  - destruct (call_term_is_damped r0 w q Hq) as [a [Ha Hle]].
    cbn [map fold_left]. rewrite Ha. cbn [np_add].
    destruct (IH (acc + a * w)) as [v [Hv Hb]].
    exists v. split; [exact Hv | ].
    cbn [map sum_list fold_right]. fold (sum_list
      (map (fun q0 => Rabs (fin_value (daily_return q0))) rows)).
    replace (v - acc) with ((v - (acc + a * w)) + a * w) by ring.
    eapply Rle_trans; [apply Rabs_triang | ].
    rewrite (Rabs_mult a w).
    assert (Hw := Rabs_pos w).
    assert (Ha0 := Rabs_pos a). nra.
Qed.

Lemma call_terms_are_finite (r0 w : R) (rows : list quote) :
  Forall valid_row rows ->
  Forall (fun x => x <> NaN)
    (map (fun q => weighted_leverage_return (Fin r0) "call" (mkMember q (Fin w)))
       rows).
Proof.
  intros H. apply Forall_forall. intros x Hx. apply in_map_iff in Hx.
  destruct Hx as [q [<- Hq]]. rewrite Forall_forall in H.
  destruct (call_term_is_damped r0 w q (H q Hq)) as [a [-> _]]. discriminate.
Qed.

(** X15.  For a call bucket in which a member survives and whose rows
    are valid (finite S > 0, K > 0, ttm > 0, iv > 0 and a finite daily
    return), with a finite rate, the bucket return is a finite number
    whose absolute value is at most the mean absolute daily return of
    the rows: dividing by the call elasticity, which exceeds 1, only
    damps the returns. *)
Theorem call_bucket_return_is_damped (data : list quote) (k_s tt : npfloat)
  (r0 : R) (ms : list member) :
  Forall valid_row (select_type data "call") ->
  surviving_members data k_s tt "call" = Return ms ->
  ms <> [] ->
  exists v,
    construct_portfolio data k_s tt "call" (Fin r0) = Return (Fin v)
    /\ Rabs v
       <= sum_list (map (fun q => Rabs (fin_value (daily_return q)))
                      (select_type data "call"))
          / INR (List.length (select_type data "call")).
Proof.
  intros Hvalid Hs Hne.
  rewrite (construct_portfolio_of_members _ _ _ _ (Fin r0) _ Hs).
  destruct (survivors_shape _ _ _ _ _ Hs) as [-> | ->]; [contradiction | ].
  set (rows := select_type data "call") in *.
  assert (Hn : 0 < INR (List.length rows)).
  { apply lt_0_INR. destruct rows; [now contradiction Hne | simpl; lia]. }
  rewrite map_map.
  rewrite pandas_sum_no_nan by now apply call_terms_are_finite.
  destruct (call_terms_sum r0 (1 / INR (List.length rows)) rows Hvalid 0)
    as [v [Hv Hb]].
  exists v. split; [unfold np_sum; now rewrite Hv | ].
  rewrite Rminus_0_r in Hb. eapply Rle_trans; [exact Hb | ].
  rewrite Rabs_pos_eq by (apply Rlt_le, Rdiv_lt_0_compat; lra).
  right. field. lra.
Qed.

Lemma valid_atm_call (rho : R) : valid_row (atm_call (Fin rho)).
Proof.
  exists 100, 100, 30, (1 / 5), rho. repeat split; lra.
Qed.

(** One at-the-money call that gained 1% on the day. *)
Lemma call_bucket_return_is_damped_witness :
  Forall valid_row (select_type [atm_call (Fin (1 / 100))] "call")
  /\ surviving_members [atm_call (Fin (1 / 100))] (Fin 1) (Fin 30) "call"
     = Return [mkMember (atm_call (Fin (1 / 100))) (Fin (1 / 1))]
  /\ exists v,
       construct_portfolio [atm_call (Fin (1 / 100))] (Fin 1) (Fin 30) "call"
         (Fin (1 / 100)) = Return (Fin v)
       /\ Rabs v
          <= sum_list (map (fun q => Rabs (fin_value (daily_return q)))
                         (select_type [atm_call (Fin (1 / 100))] "call"))
             / INR (List.length (select_type [atm_call (Fin (1 / 100))] "call")).
Proof.
  assert (Hv : Forall valid_row (select_type [atm_call (Fin (1 / 100))] "call"))
    by (repeat constructor; apply valid_atm_call).
  split; [exact Hv | split; [apply surviving_members_atm_call | ]].
  apply (call_bucket_return_is_damped [atm_call (Fin (1 / 100))] (Fin 1) (Fin 30)
           (1 / 100) [mkMember (atm_call (Fin (1 / 100))) (Fin (1 / 1))] Hv);
    [apply surviving_members_atm_call | discriminate].
Defined.

Lemma priced_row_elasticity (r0 : R) (ty : string) (q : quote) :
  priced_row q ->
  elasticity (Fin r0) ty q = Fin (row_elasticity r0 ty q)
  /\ row_elasticity r0 ty q <> 0.
Proof.
  intros [(S & K & t & sigma & HS & HK & Ht & Hi & HS0 & HK0 & Ht0 & Hs0) _].
  assert (HT : 0 < t / 365) by (apply Rdiv_lt_0_compat; lra).
  unfold elasticity, elasticity_of, row_elasticity.
  rewrite HS, HK, Ht, Hi, np_div_fin by lra. cbn [fin_value].
  destruct (String.eqb_spec ty "call") as [-> | Hty].
  - rewrite bs_elasticity_call_valid by assumption. cbn [bind].
    split; [reflexivity | ].
    assert (H := call_elasticity_gt_1 S K (t / 365) r0 sigma HS0 HK0 HT Hs0). lra.
  - rewrite (bs_elasticity_else_branch _ _ _ _ _ _ Hty).
    rewrite bs_elasticity_put_valid by assumption. cbn [bind].
    split; [reflexivity | ].
    assert (H := put_elasticity_neg S K (t / 365) r0 sigma HS0 HK0 HT Hs0). lra.
Qed.

Lemma priced_terms_sum (r0 w : R) (ty : string) (rows : list quote) :
  Forall priced_row rows ->
  forall acc,
    fold_left np_add
      (filter (fun x => negb (is_nan x))
         (map (fun q => weighted_leverage_return (Fin r0) ty (mkMember q (Fin w)))
            rows))
      (Fin acc)
    = Fin (acc
           + w * sum_list
                   (map (fun q => fin_value (daily_return q) / row_elasticity r0 ty q)
                      rows)).
Proof.
  induction 1 as [ | q rows Hq _ IH]; intros acc.
  - simpl. f_equal. ring.
  - destruct (priced_row_elasticity r0 ty q Hq) as [He Hnz].
    cbn [map]. unfold weighted_leverage_return at 1. cbn [row weight].
    rewrite He.
    destruct Hq as [_ [[rho Hr] | Hr]]; rewrite Hr.
    + rewrite np_div_fin by exact Hnz. cbn [np_mul filter is_nan negb fold_left np_add].
      rewrite IH. cbn [map sum_list fold_right fin_value]. f_equal.
      fold (sum_list (map (fun q0 => fin_value (daily_return q0)
                                     / row_elasticity r0 ty q0) rows)).
      ring.
    + cbn [np_div np_mul filter is_nan negb].
      rewrite IH. cbn [map sum_list fold_right fin_value]. f_equal.
      fold (sum_list (map (fun q0 => fin_value (daily_return q0)
                                     / row_elasticity r0 ty q0) rows)).
      unfold Rdiv. ring.
Qed.

(** X16.  For a bucket in which a member survives and whose rows have
    valid pricing inputs (finite S > 0, K > 0, ttm > 0, iv > 0), with a
    finite rate, the bucket return is the sum of
    daily_return_i / elasticity_i over the rows whose daily return is
    not missing, divided by the number n of all rows of the bucket: a row
    with a missing daily return adds nothing, and its weight 1/n is not
    given to the others. *)
Theorem bucket_return_with_missing_returns (data : list quote) (k_s tt : npfloat)
  (ty : string) (r0 : R) (ms : list member) :
  Forall priced_row (select_type data ty) ->
  surviving_members data k_s tt ty = Return ms ->
  ms <> [] ->
  construct_portfolio data k_s tt ty (Fin r0)
  = Return
      (Fin (sum_list
              (map (fun q => fin_value (daily_return q) / row_elasticity r0 ty q)
                 (select_type data ty))
            / INR (List.length (select_type data ty)))).
Proof.
  intros Hrows Hs Hne.
  rewrite (construct_portfolio_of_members _ _ _ _ (Fin r0) _ Hs).
  destruct (survivors_shape _ _ _ _ _ Hs) as [-> | ->]; [contradiction | ].
  set (rows := select_type data ty) in *.
  assert (Hn : 0 < INR (List.length rows)).
  { apply lt_0_INR. destruct rows; [now contradiction Hne | simpl; lia]. }
  rewrite map_map. unfold pandas_sum, np_sum.
  rewrite (priced_terms_sum r0 (1 / INR (List.length rows)) ty rows Hrows 0).
  do 2 f_equal. field. lra.
Qed.

Lemma priced_atm_call (ret : npfloat) :
  (exists rho, ret = Fin rho) \/ ret = NaN -> priced_row (atm_call ret).
Proof.
  intros H. split; [ | exact H].
  exists 100, 100, 30, (1 / 5). repeat split; lra.
Qed.

(** Two at-the-money calls, the second without a daily return. *)
Lemma bucket_return_with_missing_returns_witness :
  Forall priced_row (select_type [atm_call (Fin (1 / 100)); atm_call NaN] "call")
  /\ (exists ms,
        surviving_members [atm_call (Fin (1 / 100)); atm_call NaN] (Fin 1) (Fin 30)
          "call" = Return ms /\ ms <> [])
  /\ construct_portfolio [atm_call (Fin (1 / 100)); atm_call NaN] (Fin 1) (Fin 30)
       "call" (Fin (1 / 100))
     = Return
         (Fin (sum_list
                 (map (fun q => fin_value (daily_return q)
                                / row_elasticity (1 / 100) "call" q)
                    (select_type [atm_call (Fin (1 / 100)); atm_call NaN] "call"))
               / INR (List.length
                        (select_type [atm_call (Fin (1 / 100)); atm_call NaN]
                           "call")))).
Proof.
  assert (Hrows : Forall priced_row
                    (select_type [atm_call (Fin (1 / 100)); atm_call NaN] "call")).
  { unfold select_type.
    cbn [atm_call filter option_type String.eqb Ascii.eqb Bool.eqb].
    constructor; [apply priced_atm_call; left; now eexists | ].
    constructor; [apply priced_atm_call; now right | constructor]. }
  assert (Hs : surviving_members [atm_call (Fin (1 / 100)); atm_call NaN]
                 (Fin 1) (Fin 30) "call"
               = Return (renormalize (drop_small
                   (map (fun q => mkMember q (Fin 1))
                      [atm_call (Fin (1 / 100)); atm_call NaN])))).
  { unfold surviving_members, weighted_subset.
    cbn [select_type atm_call filter option_type String.eqb Ascii.eqb Bool.eqb
         map moneyness ttm].
    rewrite kernel_weights_pair. reflexivity. }
  rewrite drop_small_ones, renormalize_ones in Hs by discriminate.
  split; [exact Hrows | split].
  - eexists. split; [exact Hs | discriminate].
  - apply (bucket_return_with_missing_returns _ _ _ _ _ _ Hrows Hs). discriminate.
Defined.

(** X17.  When the underlying level and the strike are finite numbers
    of opposite signs, [bs_elasticity] returns [(NaN, NaN)] without any
    error, whatever T, r, sigma and the option type. *)
Theorem opposite_signs_give_nan (S K : R) (T r sigma : npfloat) (ty : string) :
  S * K < 0 ->
  bs_elasticity (Fin S) (Fin K) T r sigma ty = Return [NaN; NaN].
Proof.
  intros H. apply bs_elasticity_nan_d1.
  assert (HK : K <> 0) by (intros ->; lra).
  assert (Hq : S / K < 0).
  { assert (Hi : 0 < / (K * K))
      by (apply Rinv_0_lt_compat; destruct (Rdichotomy _ _ HK); nra).
    replace (S / K) with (S * K * / (K * K)) by (field; exact HK). nra. }
  rewrite np_div_fin by exact HK.
  unfold np_log. destruct (Rlt_dec 0 (S / K)) as [Hp | _]; [lra | ].
  destruct (Req_EM_T (S / K) 0) as [E | _]; [lra | ].
  reflexivity.
Qed.

(** A strike entered with the wrong sign. *)
Lemma opposite_signs_give_nan_witness :
  100 * -100 < 0
  /\ bs_elasticity (Fin 100) (Fin (-100)) (Fin (1 / 4)) (Fin (1 / 100))
       (Fin (1 / 5)) "call"
     = Return [NaN; NaN].
Proof.
  split; [lra | ].
  apply (opposite_signs_give_nan 100 (-100) (Fin (1 / 4)) (Fin (1 / 100))
           (Fin (1 / 5)) "call").
  lra.
Defined.
